(** * jigxel-engine: the ECS world and the 2D physics world

    A shallow embedding of [pkg/ecs] (world.go, components.go) and of
    [internal/physics/world.go], with the properties of the two worlds
    stated over it.

    Conventions of the embedding:
    - a Go [uint64] is an [N] below [2^64]; [++] wraps around;
    - a Go [float64] is a primitive binary64 float of Rocq, every operation
      rounded on its own to nearest, ties to even (what the gc compiler
      emits on amd64; on some targets it may fuse [x*y + z]);
    - a Go [map] is a [gmap]. A [range] over a map visits its entries in an
      order the language leaves open: a loop whose result depends on the
      order takes the visiting order as an argument, and the theorems hold
      for every order; the loop of [DestroyEntity] is run in one order and
      shown not to depend on it;
    - a method with a pointer receiver that mutates the world is a function
      from world to world; the bodies of the physics world, which the world
      and its callers share through pointers, live in a heap;
    - the mutexes are not modelled, and neither is [ecs.World.Update], which
      hands the world to the registered systems: a system is code of the
      caller, and what it does to the world it does through the calls
      embedded here. *)

From Stdlib Require Import Floats.
From stdpp Require Import gmap strings list fin_maps sorting.

Set Default Proof Using "Type".
Set Warnings "-inexact-float".

(** ** 64-bit unsigned counters *)

Definition uint64_modulus : N := 2 ^ 64.

(** [x++] on a [uint64]. *)
Definition uint64_incr (x : N) : N := ((x + 1) mod uint64_modulus)%N.

Module ECS.

(** [type EntityID uint64] *)
Abbreviation EntityID := N.

(** [type Component interface { GetType() string }] *)
Class Component (C : Type) := GetType : C → string.

(** [type System interface { Update(float64, *World); GetName() string }];
    only the name is observed by the world's own operations. *)
Class System (S : Type) := GetName : S → string.

Section world.
Context {C S : Type} `{!Component C, !System S}.

(** [type Entity struct]. The values of [Components] are non-nil
    interface values: [AddComponent] is the only writer and calls
    [GetType] on its argument before it stores it. *)
Record Entity : Type := mkEntity {
  ID : EntityID;
  Components : gmap string C;
  Active : bool
}.

(** [type World struct]. An element of a per-type list is an interface
    value, [None] standing for the nil interface. *)
Record World : Type := mkWorld {
  entities : gmap N Entity;
  components : gmap string (list (option C));
  systems : list S;
  nextEntityID : EntityID
}.

Definition NewWorld : World :=
  {| entities := ∅; components := ∅; systems := []; nextEntityID := 0%N |}.

Definition CreateEntity (w : World) : EntityID * World :=
  let entityID := nextEntityID w in
  let entity := {| ID := entityID; Components := ∅; Active := true |} in
  (entityID,
   {| entities := <[entityID := entity]> (entities w);
      components := components w;
      systems := systems w;
      nextEntityID := uint64_incr entityID |}).

(** The loop of [removeComponentFromList]: cut out the first non-nil
    element; [None] when the loop ends without finding one. *)
Fixpoint remove_first_non_nil (l : list (option C)) : option (list (option C)) :=
  match l with
  | [] => None
  | Some _ :: l' => Some l'
  | None :: l' => cons None <$> remove_first_non_nil l'
  end.

Definition removeComponentFromList
    (entityID : EntityID) (componentType : string) (w : World) : World :=
  match components w !! componentType with
  | Some l =>
      match remove_first_non_nil l with
      | Some l' =>
          {| entities := entities w;
             components := <[componentType := l']> (components w);
             systems := systems w;
             nextEntityID := nextEntityID w |}
      | None => w
      end
  | None => w
  end.

(** The [range entity.Components] loop of [DestroyEntity], over the
    component types in the order [tys]. *)
Definition removeAllFromList
    (entityID : EntityID) (tys : list string) (w : World) : World :=
  foldl (λ w' ty, removeComponentFromList entityID ty w') w tys.

(** [DestroyEntity], ranging over the entity's component types in the
    order [map_to_list] gives; [removeAllFromList_perm] below shows that
    the order makes no difference. *)
Definition DestroyEntity (entityID : EntityID) (w : World) : World :=
  match entities w !! entityID with
  | Some entity =>
      let w' := removeAllFromList entityID (map_to_list (Components entity)).*1 w in
      {| entities := delete entityID (entities w');
         components := components w';
         systems := systems w';
         nextEntityID := nextEntityID w' |}
  | None => w
  end.

Definition AddComponent (entityID : EntityID) (component : C) (w : World) : World :=
  match entities w !! entityID with
  | Some entity =>
      let componentType := GetType component in
      let entity' :=
        {| ID := ID entity;
           Components := <[componentType := component]> (Components entity);
           Active := Active entity |} in
      {| entities := <[entityID := entity']> (entities w);
         components :=
           <[componentType :=
               default [] (components w !! componentType) ++ [Some component]]>
             (components w);
         systems := systems w;
         nextEntityID := nextEntityID w |}
  | None => w
  end.

Definition RemoveComponent
    (entityID : EntityID) (componentType : string) (w : World) : World :=
  match entities w !! entityID with
  | Some entity =>
      match Components entity !! componentType with
      | Some _ =>
          let entity' :=
            {| ID := ID entity;
               Components := delete componentType (Components entity);
               Active := Active entity |} in
          removeComponentFromList entityID componentType
            {| entities := <[entityID := entity']> (entities w);
               components := components w;
               systems := systems w;
               nextEntityID := nextEntityID w |}
      | None => w
      end
  | None => w
  end.

(** [GetComponent]; [None] is the nil interface. *)
Definition GetComponent
    (entityID : EntityID) (componentType : string) (w : World) : option C :=
  match entities w !! entityID with
  | Some entity => Components entity !! componentType
  | None => None
  end.

(** The orders in which [range w.entities] may visit the entities: the
    permutations of the map's keys. *)
Definition entity_order (w : World) (order : list EntityID) : Prop :=
  order ≡ₚ (map_to_list (entities w)).*1.

(** The loop of [GetEntitiesWithComponent], visiting the entities in the
    order [order]; an ID that is not a key of the map is not visited. *)
Fixpoint collectEntities (componentType : string) (w : World)
    (order : list EntityID) : list EntityID :=
  match order with
  | [] => []
  | entityID :: order' =>
      match entities w !! entityID with
      | Some entity =>
          match Components entity !! componentType with
          | Some _ => entityID :: collectEntities componentType w order'
          | None => collectEntities componentType w order'
          end
      | None => collectEntities componentType w order'
      end
  end.

Definition GetEntitiesWithComponent
    (order : list EntityID) (componentType : string) (w : World)
    : list EntityID :=
  collectEntities componentType w order.

Definition AddSystem (system : S) (w : World) : World :=
  {| entities := entities w;
     components := components w;
     systems := systems w ++ [system];
     nextEntityID := nextEntityID w |}.

(** The loop of [RemoveSystem]: the first system with the name is cut
    out and the loop is left. *)
Fixpoint removeFirstNamed (systemName : string) (l : list S) : list S :=
  match l with
  | [] => []
  | system :: l' =>
      if decide (GetName system = systemName) then l'
      else system :: removeFirstNamed systemName l'
  end.

Definition RemoveSystem (systemName : string) (w : World) : World :=
  {| entities := entities w;
     components := components w;
     systems := removeFirstNamed systemName (systems w);
     nextEntityID := nextEntityID w |}.

Definition GetEntityCount (w : World) : nat := size (entities w).

Definition GetSystemCount (w : World) : nat := length (systems w).

(** *** Sequences of calls *)

Inductive Op : Type :=
| OpCreateEntity
| OpDestroyEntity (entityID : EntityID)
| OpAddComponent (entityID : EntityID) (component : C)
| OpRemoveComponent (entityID : EntityID) (componentType : string)
| OpAddSystem (system : S)
| OpRemoveSystem (systemName : string).

(** One call: the world after it, and the ID it returned if it was a
    [CreateEntity]. *)
Definition step (op : Op) (w : World) : World * option EntityID :=
  match op with
  | OpCreateEntity => let '(i, w') := CreateEntity w in (w', Some i)
  | OpDestroyEntity i => (DestroyEntity i w, None)
  | OpAddComponent i c => (AddComponent i c w, None)
  | OpRemoveComponent i ty => (RemoveComponent i ty w, None)
  | OpAddSystem s => (AddSystem s w, None)
  | OpRemoveSystem n => (RemoveSystem n w, None)
  end.

(** A sequence of calls: the final world and the IDs returned by the
    [CreateEntity] calls, in call order. *)
Fixpoint run (ops : list Op) (w : World) : World * list EntityID :=
  match ops with
  | [] => (w, [])
  | op :: ops' =>
      let '(w1, r) := step op w in
      let '(w2, ids) := run ops' w1 in
      (w2, from_option (λ i, i :: ids) ids r)
  end.

Definition is_create (op : Op) : bool :=
  match op with OpCreateEntity => true | _ => false end.

(** How many [CreateEntity] calls a sequence holds. *)
Fixpoint creates (ops : list Op) : nat :=
  match ops with
  | [] => 0
  | op :: ops' => (if is_create op then 1 else 0) + creates ops'
  end.

(** [CreateEntity] followed by [DestroyEntity] of the ID it returned. *)
Definition create_destroy (w : World) : World :=
  let '(i, w') := CreateEntity w in DestroyEntity i w'.

(** [tracks w n]: [n] entities have been created in [w]'s lifetime, the
    counter has not wrapped, and every stored entity was one of them. *)
Definition tracks (w : World) (n : N) : Prop :=
  (n ≤ uint64_modulus)%N ∧
  nextEntityID w = (n mod uint64_modulus)%N ∧
  ∀ i, is_Some (entities w !! i) → (i < n)%N.

(** Two worlds that differ at most in the [Active] flags of their entities. *)
Definition same_but_Active (w1 w2 : World) : Prop :=
  (∀ i, option_Forall2 (λ e1 e2, ID e1 = ID e2 ∧ Components e1 = Components e2)
          (entities w1 !! i) (entities w2 !! i)) ∧
  components w1 = components w2 ∧
  systems w1 = systems w2 ∧
  nextEntityID w1 = nextEntityID w2.

(** [k] rounds of [CreateEntity] followed by [DestroyEntity] of the ID it
    returns, in a world whose counter stands at [n]. *)
Fixpoint churn (k : nat) (n : N) : list Op :=
  match k with
  | O => []
  | Datatypes.S k' =>
      OpCreateEntity :: OpDestroyEntity n :: churn k' (uint64_incr n)
  end.

(** The world with every [Active] flag cleared. No operation of the
    package clears a flag; this is the world a caller inside the package
    could make, used to compare worlds that differ in flags only. *)
Definition set_all_inactive (w : World) : World :=
  {| entities :=
       (λ e, {| ID := ID e; Components := Components e; Active := false |})
         <$> entities w;
     components := components w;
     systems := systems w;
     nextEntityID := nextEntityID w |}.

End world.

Arguments Entity C : clear implicits.
Arguments World C S : clear implicits.
Arguments Op C S : clear implicits.

(** *** The built-in components (components.go) *)

(** [mgl32.Vec3]: three [float32] coordinates, each held as the binary64
    float of the same value. *)
Record Vec3 : Type := mkVec3 { vec_x : float; vec_y : float; vec_z : float }.

(** The component types of the package; a value stands for the pointer
    the constructor returns. *)
Inductive BuiltinComponent : Type :=
| TransformComponent (Position Rotation Scale : Vec3)
| MeshComponent (MeshID : string) (Visible : bool)
| PhysicsComponent (BodyID : N) (Mass : float) (Active : bool)
| AudioComponent (SoundID : string) (Volume : float) (Loop : bool)
| TagComponent (Tags : list string).

#[export] Instance BuiltinComponent_GetType : Component BuiltinComponent :=
  λ c, match c with
       | TransformComponent _ _ _ => "transform"
       | MeshComponent _ _ => "mesh"
       | PhysicsComponent _ _ _ => "physics"
       | AudioComponent _ _ _ => "audio"
       | TagComponent _ => "tag"
       end.

Definition NewTransformComponent (position rotation scale : Vec3) : BuiltinComponent :=
  TransformComponent position rotation scale.

Definition NewMeshComponent (meshID : string) : BuiltinComponent :=
  MeshComponent meshID true.

Definition NewPhysicsComponent (bodyID : N) (mass : float) : BuiltinComponent :=
  PhysicsComponent bodyID mass true.

Definition NewAudioComponent (soundID : string) (volume : float) (loop : bool)
    : BuiltinComponent :=
  AudioComponent soundID volume loop.

Definition NewTagComponent (tags : list string) : BuiltinComponent :=
  TagComponent tags.

(** *** Systems *)

(** [RotationSystem] of examples/basic/main.go, with its start time in
    nanoseconds; any other implementation of the interface is kept as the
    name it reports. *)
Inductive DemoSystem : Type :=
| RotationSystem (startTime : Z)
| NamedSystem (name : string).

#[export] Instance DemoSystem_GetName : System DemoSystem :=
  λ s, match s with
       | RotationSystem _ => "RotationSystem"
       | NamedSystem name => name
       end.

(** *** Worlds and call sequences used as examples *)

Abbreviation DemoWorld := (World BuiltinComponent DemoSystem).
Abbreviation DemoOp := (Op BuiltinComponent DemoSystem).

(** A world with one entity, as the demo of cmd/main.go starts. *)
Definition demo_world : DemoWorld := (CreateEntity NewWorld).2.

Definition demo_calls : list DemoOp :=
  [OpCreateEntity; OpDestroyEntity 1%N; OpCreateEntity].

(** Two entities, the first with a tag and a physics component (added
    twice), the second with a mesh. *)
Definition demo_world2 : DemoWorld :=
  (run [OpAddComponent 0%N (NewTagComponent ["player"]);
        OpAddComponent 0%N (NewPhysicsComponent 1 1);
        OpAddComponent 0%N (NewPhysicsComponent 1 2);
        OpCreateEntity;
        OpAddComponent 1%N (NewMeshComponent "default")] demo_world).1.

(** [2^64] rounds of creating and destroying an entity, then one more
    [CreateEntity]. *)
Definition wrap_calls : list DemoOp :=
  churn (N.to_nat uint64_modulus) 0 ++ [OpCreateEntity].

(** A new world in which entity [0] is created and tagged. *)
Definition tagged_calls : list DemoOp :=
  [OpCreateEntity; OpAddComponent 0%N (NewTagComponent ["player"])].

Definition later_calls : list DemoOp :=
  [OpCreateEntity;
   OpAddComponent 0%N (NewTagComponent ["ghost"]);
   OpAddComponent 1%N (NewTagComponent ["enemy"]);
   OpRemoveComponent 0%N "tag"].

(** After entity [0] is gone and the counter stands at [1]: [2^64 - 1]
    rounds of creating and destroying an entity, then [CreateEntity] and
    a tag for the ID [0]. *)
Definition rebirth_calls : list DemoOp :=
  churn (N.to_nat (uint64_modulus - 1)) 1 ++
  [OpCreateEntity; OpAddComponent 0%N (NewTagComponent ["ghost"])].

(** Worlds with registered systems. *)
Definition two_rotations : DemoWorld :=
  AddSystem (RotationSystem 5) (AddSystem (RotationSystem 0) NewWorld).

Definition four_systems : DemoWorld :=
  AddSystem (RotationSystem 5)
    (AddSystem (NamedSystem "render")
       (AddSystem (RotationSystem 0)
          (AddSystem (NamedSystem "physics") NewWorld))).

(** *** The methods of [TagComponent] *)

(** [AddTag]: the tag is appended, whether the component has it or not. *)
Definition AddTag (tag : string) (tags : list string) : list string :=
  tags ++ [tag].

(** The loop of [HasTag]. *)
Fixpoint HasTag (tag : string) (tags : list string) : bool :=
  match tags with
  | [] => false
  | t :: tags' => if decide (t = tag) then true else HasTag tag tags'
  end.

(** *** Notions used to state invariants of the world *)

Section invariants.
Context {C S : Type} `{!Component C, !System S}.

(** Every stored entity carries its key as [ID] and is active. *)
Definition entities_ok (w : World C S) : Prop :=
  ∀ i e, entities w !! i = Some e → ID e = i ∧ Active e = true.

(** Every component is filed under the type it reports, in the entities'
    maps and in the global per-type lists. *)
Definition tags_ok (w : World C S) : Prop :=
  (∀ i e ty c,
     entities w !! i = Some e → Components e !! ty = Some c → GetType c = ty) ∧
  (∀ ty l c, components w !! ty = Some l → Some c ∈ l → GetType c = ty).

(** No global per-type list holds a nil interface. *)
Definition no_nil (w : World C S) : Prop :=
  ∀ ty l, components w !! ty = Some l → None ∉ l.

(** How many entities hold a component of the type [ty]. *)
Definition holders (ty : string) (w : World C S) : nat :=
  size (filter (λ kv : N * Entity C, is_Some (Components kv.2 !! ty)) (entities w)).

(** How long the global list of the type [ty] is ([0] when the type has
    no list). *)
Definition listed (ty : string) (w : World C S) : nat :=
  length (default [] (components w !! ty)).

End invariants.

(** Two entities that each get a tag component, entity [0] first. *)
Definition two_tagged_calls : list DemoOp :=
  [OpCreateEntity; OpCreateEntity;
   OpAddComponent 0%N (NewTagComponent ["player"]);
   OpAddComponent 1%N (NewTagComponent ["enemy"])].

End ECS.

(** * The physics world (internal/physics/world.go) *)

Module Physics.

Local Open Scope float_scope.

(** [type Vector2 struct { X, Y float64 }] *)
Record Vector2 : Type := mkVector2 { X : float; Y : float }.

Definition Add (v other : Vector2) : Vector2 :=
  {| X := X v + X other; Y := Y v + Y other |}.

Definition Sub (v other : Vector2) : Vector2 :=
  {| X := X v - X other; Y := Y v - Y other |}.

Definition Mul (v : Vector2) (scalar : float) : Vector2 :=
  {| X := X v * scalar; Y := Y v * scalar |}.

Definition Div (v : Vector2) (scalar : float) : Vector2 :=
  {| X := X v / scalar; Y := Y v / scalar |}.

Definition Length (v : Vector2) : float := sqrt (X v * X v + Y v * Y v).

(** [type RigidBody struct] *)
Record RigidBody : Type := mkRigidBody {
  ID : N;
  Position : Vector2;
  Velocity : Vector2;
  Force : Vector2;
  Mass : float;
  InverseMass : float;
  Width : float;
  Height : float;
  Active : bool
}.

Definition NewRigidBody (id : N) (position : Vector2) (width height mass : float)
    : RigidBody :=
  let inverseMass := if 0 <? mass then 1 / mass else 0 in
  {| ID := id;
     Position := position;
     Velocity := {| X := 0; Y := 0 |};
     Force := {| X := 0; Y := 0 |};
     Mass := mass;
     InverseMass := inverseMass;
     Width := width;
     Height := height;
     Active := true |}.

(** The world holds pointers: [bodies map[uint64]*RigidBody]. A pointer is
    an address (an [N]), and the bodies themselves live in a heap from
    addresses to bodies, so that a body filed under two IDs is one object.
    The world's methods do not allocate; [Update] changes the heap only. *)
Abbreviation Heap := (gmap N RigidBody).

(** [type World struct] *)
Record World : Type := mkWorld {
  bodies : gmap N N;
  gravity : Vector2;
  timeStep : float
}.

Definition NewWorld : World :=
  {| bodies := ∅; gravity := {| X := 0; Y := -9.81 |}; timeStep := 1 / 60 |}.

(** [AddBody]: the body is filed under the ID read through the pointer
    (a pointer outside the heap stands for nil, on which Go panics: the
    world is left as it is). *)
Definition AddBody (body : N) (h : Heap) (w : World) : World :=
  match h !! body with
  | Some b =>
      {| bodies := <[ID b := body]> (bodies w);
         gravity := gravity w;
         timeStep := timeStep w |}
  | None => w
  end.

Definition RemoveBody (id : N) (w : World) : World :=
  {| bodies := delete id (bodies w); gravity := gravity w; timeStep := timeStep w |}.

(** [GetBody]; [None] is the nil pointer. *)
Definition GetBody (id : N) (w : World) : option N := bodies w !! id.

Definition SetGravity (g : Vector2) (w : World) : World :=
  {| bodies := bodies w; gravity := g; timeStep := timeStep w |}.

(** The orders in which [range w.bodies] may visit the bodies. *)
Definition body_order (w : World) (order : list N) : Prop :=
  order ≡ₚ (map_to_list (bodies w)).*1.

(** The body of the first loop of [Update], for one body. *)
Definition integrate (g : Vector2) (deltaTime : float) (body : RigidBody) : RigidBody :=
  if Active body then
    let force := Add (Force body) (Mul g (Mass body)) in
    let velocity :=
      Add (Velocity body) (Mul (Mul force deltaTime) (InverseMass body)) in
    let position := Add (Position body) (Mul velocity deltaTime) in
    {| ID := ID body;
       Position := position;
       Velocity := velocity;
       Force := {| X := 0; Y := 0 |};
       Mass := Mass body;
       InverseMass := InverseMass body;
       Width := Width body;
       Height := Height body;
       Active := Active body |}
  else body.

(** The first loop of [Update], visiting the IDs in the order [order]. *)
Definition integrateBodies (order : list N) (deltaTime : float) (w : World) (h : Heap)
    : Heap :=
  foldl (λ h' id,
           match bodies w !! id with
           | Some p => alter (integrate (gravity w) deltaTime) p h'
           | None => h'
           end) h order.

Definition checkCollision (body1 body2 : RigidBody) : bool :=
  let left1 := X (Position body1) - Width body1 / 2 in
  let right1 := X (Position body1) + Width body1 / 2 in
  let top1 := Y (Position body1) + Height body1 / 2 in
  let bottom1 := Y (Position body1) - Height body1 / 2 in
  let left2 := X (Position body2) - Width body2 / 2 in
  let right2 := X (Position body2) + Width body2 / 2 in
  let top2 := Y (Position body2) + Height body2 / 2 in
  let bottom2 := Y (Position body2) - Height body2 / 2 in
  negb ((right1 <? left2) || (right2 <? left1) || (top2 <? bottom1) || (top1 <? bottom2)).

(** The local variables of [resolveCollision] when it reaches its test
    of the overlap: [normal], [distance] and [overlap]. *)
Definition collisionLocals (body1 body2 : RigidBody) : Vector2 * float * float :=
  let separation := Sub (Position body2) (Position body1) in
  let distance := Length separation in
  let '(separation, distance) :=
    if distance =? 0 then ({| X := 1; Y := 0 |}, 1) else (separation, distance) in
  let normal := Div separation distance in
  let overlap := (Width body1 + Width body2) / 2 - distance in
  (normal, distance, overlap).

Definition collisionNormal (body1 body2 : RigidBody) : Vector2 :=
  (collisionLocals body1 body2).1.1.

Definition collisionOverlap (body1 body2 : RigidBody) : float :=
  (collisionLocals body1 body2).2.

Definition setPosition (position : Vector2) (body : RigidBody) : RigidBody :=
  {| ID := ID body;
     Position := position;
     Velocity := Velocity body;
     Force := Force body;
     Mass := Mass body;
     InverseMass := InverseMass body;
     Width := Width body;
     Height := Height body;
     Active := Active body |}.

(** [resolveCollision] on the two pointers: each assignment to a
    [Position] reads the body through its pointer at that moment. *)
Definition resolveCollision (body1 body2 : N) (h : Heap) : Heap :=
  match h !! body1, h !! body2 with
  | Some b1, Some b2 =>
      let normal := collisionNormal b1 b2 in
      let overlap := collisionOverlap b1 b2 in
      if 0 <? overlap then
        let separationVector := Mul normal (overlap / 2) in
        let h1 :=
          if 0 <? InverseMass b1
          then alter (λ b, setPosition (Sub (Position b) separationVector) b) body1 h
          else h in
        if 0 <? InverseMass b2
        then alter (λ b, setPosition (Add (Position b) separationVector) b) body2 h1
        else h1
      else h
  | _, _ => h
  end.

(** The slice [bodies] that [checkCollisions] builds: the pointers of the
    bodies that are active, in visiting order. *)
Definition activeBodies (order : list N) (w : World) (h : Heap) : list N :=
  omap (λ id,
          match bodies w !! id with
          | Some p =>
              match h !! p with
              | Some b => if Active b then Some p else None
              | None => None
              end
          | None => None
          end) order.

(** One round of the inner loop of [checkCollisions]. *)
Definition collide (body1 body2 : N) (h : Heap) : Heap :=
  match h !! body1, h !! body2 with
  | Some b1, Some b2 =>
      if checkCollision b1 b2 then resolveCollision body1 body2 h else h
  | _, _ => h
  end.

(** The inner loop: [bodies[i]] against every later body. *)
Fixpoint collideWith (body1 : N) (rest : list N) (h : Heap) : Heap :=
  match rest with
  | [] => h
  | body2 :: rest' => collideWith body1 rest' (collide body1 body2 h)
  end.

(** The outer loop. *)
Fixpoint collidePairs (ps : list N) (h : Heap) : Heap :=
  match ps with
  | [] => h
  | body1 :: ps' => collidePairs ps' (collideWith body1 ps' h)
  end.

Definition checkCollisions (order : list N) (w : World) (h : Heap) : Heap :=
  collidePairs (activeBodies order w h) h.

(** [Update]: [order1] is the visiting order of the first loop, [order2]
    that of the loop in [checkCollisions]. *)
Definition Update (order1 order2 : list N) (deltaTime : float) (w : World) (h : Heap)
    : Heap :=
  checkCollisions order2 w (integrateBodies order1 deltaTime w h).

(** *** Notions used to state the properties *)

(** Two floats that hold the same value: they are equal, or both are
    zeros (of either sign). *)
Definition same_value (x y : float) : Prop :=
  x = y ∨ (is_zero x = true ∧ is_zero y = true).

Definition same_vector (u v : Vector2) : Prop :=
  same_value (X u) (X v) ∧ same_value (Y u) (Y v).

Definition zero_vector (v : Vector2) : Prop :=
  is_zero (X v) = true ∧ is_zero (Y v) = true.

Definition finite_vector (v : Vector2) : Prop :=
  is_finite (X v) = true ∧ is_finite (Y v) = true.

(** A body of mass zero and inverse mass zero, as [NewRigidBody] makes
    it for mass [0]. *)
Definition massless (b : RigidBody) : Prop :=
  is_zero (Mass b) = true ∧ is_zero (InverseMass b) = true.

(** The accumulated force of the body, scaled by [dt], is a finite
    vector: the force is finite and the product does not overflow. *)
Definition finite_impulse (dt : float) (b : RigidBody) : Prop :=
  finite_vector (Mul (Force b) dt).

(** Two heaps that hold the same bodies everywhere but at the address [p]. *)
Definition agree_off (p : N) (h1 h2 : Heap) : Prop :=
  ∀ q, q ≠ p → h1 !! q = h2 !! q.

(** The body at the address [p], if any, is not active. *)
Definition inactive_at (p : N) (h : Heap) : Prop :=
  ∀ b, h !! p = Some b → Active b = false.

(** *** Bodies, heaps and worlds used as examples *)

(** A world with the single body [b], allocated at the address [100]. *)
Definition one_body_heap (b : RigidBody) : Heap := {[ 100%N := b ]}.

Definition one_body_world (b : RigidBody) : World :=
  AddBody 100 (one_body_heap b) NewWorld.

(** A world with the two bodies [b1] and [b2], at the addresses [100]
    and [200]. *)
Definition two_body_heap (b1 b2 : RigidBody) : Heap :=
  {[ 100%N := b1; 200%N := b2 ]}.

Definition two_body_world (b1 b2 : RigidBody) : World :=
  AddBody 200 (two_body_heap b1 b2) (AddBody 100 (two_body_heap b1 b2) NewWorld).

(** [body.Velocity = v], the way a caller sets a body in motion. *)
Definition withVelocity (v : Vector2) (body : RigidBody) : RigidBody :=
  {| ID := ID body;
     Position := Position body;
     Velocity := v;
     Force := Force body;
     Mass := Mass body;
     InverseMass := InverseMass body;
     Width := Width body;
     Height := Height body;
     Active := Active body |}.

(** [body.Active = false] *)
Definition deactivate (body : RigidBody) : RigidBody :=
  {| ID := ID body;
     Position := Position body;
     Velocity := Velocity body;
     Force := Force body;
     Mass := Mass body;
     InverseMass := InverseMass body;
     Width := Width body;
     Height := Height body;
     Active := false |}.

(** A body of mass [0], four units wide, at the origin. *)
Definition wall : RigidBody := NewRigidBody 1 {| X := 0; Y := 0 |} 4 4 0.

(** A body of mass [0] that was given a velocity. *)
Definition moving_wall : RigidBody := withVelocity {| X := 1; Y := 0 |} wall.

(** A unit body of mass [1], half a unit right of the origin. *)
Definition ball : RigidBody := NewRigidBody 2 {| X := 0.5; Y := 0 |} 1 1 1.

(** A unit body of mass [1] at the origin that was switched off. *)
Definition sleeper : RigidBody :=
  deactivate (NewRigidBody 1 {| X := 0; Y := 0 |} 1 1 1).

(** Two unit bodies of mass [1], both at the origin. *)
Definition twin1 : RigidBody := NewRigidBody 1 {| X := 0; Y := 0 |} 1 1 1.
Definition twin2 : RigidBody := NewRigidBody 2 {| X := 0; Y := 0 |} 1 1 1.

(** *** Notions used to state what [Update] keeps *)

(** Two states of a body that differ at most in [Position]. *)
Definition same_but_Position (b b' : RigidBody) : Prop :=
  ID b' = ID b ∧ Velocity b' = Velocity b ∧ Force b' = Force b ∧
  Mass b' = Mass b ∧ InverseMass b' = InverseMass b ∧
  Width b' = Width b ∧ Height b' = Height b ∧ Active b' = Active b.

(** Two states of a body that differ at most in [Position], [Velocity]
    and [Force]. *)
Definition same_fixed_fields (b b' : RigidBody) : Prop :=
  ID b' = ID b ∧ Mass b' = Mass b ∧ InverseMass b' = InverseMass b ∧
  Width b' = Width b ∧ Height b' = Height b ∧ Active b' = Active b.

(** Two heaps with the same addresses in use, the bodies at each address
    related by [R]. *)
Definition heap_related (R : RigidBody → RigidBody → Prop) (h h' : Heap) : Prop :=
  ∀ p, option_Forall2 R (h !! p) (h' !! p).

(** The address [p] is stored in the world under some ID. *)
Definition in_world (w : World) (p : N) : Prop :=
  ∃ id, bodies w !! id = Some p.

(** A body that does not move, with no force accumulated and finite
    mass and inverse mass. *)
Definition at_rest (b : RigidBody) : Prop :=
  zero_vector (Velocity b) ∧ zero_vector (Force b) ∧
  is_finite (Mass b) = true ∧ is_finite (InverseMass b) = true.

(** Two bodies of mass [1], three units wide, both at the origin. *)
Definition wide_twin1 : RigidBody := NewRigidBody 1 {| X := 0; Y := 0 |} 3 3 1.
Definition wide_twin2 : RigidBody := NewRigidBody 2 {| X := 0; Y := 0 |} 3 3 1.

(** [body.Force = f], a force applied by the caller before a tick. *)
Definition withForce (f : Vector2) (body : RigidBody) : RigidBody :=
  {| ID := ID body;
     Position := Position body;
     Velocity := Velocity body;
     Force := f;
     Mass := Mass body;
     InverseMass := InverseMass body;
     Width := Width body;
     Height := Height body;
     Active := Active body |}.

(** A body of mass [0] on which the caller has put the force [(3, 4)]. *)
Definition pushed_wall : RigidBody := withForce {| X := 3; Y := 4 |} wall.

(** A body of mass [0] with a force that overflows when scaled by [10]. *)
Definition overloaded_wall : RigidBody := withForce {| X := 1e308; Y := 0 |} wall.

(** A world without gravity. *)
Definition calm_world (b1 b2 : RigidBody) : World :=
  SetGravity {| X := 0; Y := 0 |} (two_body_world b1 b2).

End Physics.

(** * The input manager (pkg/input/manager.go) *)

Module Input.

Local Open Scope float_scope.

(** [glfw.Action], as the callbacks receive it: [glfw.Release],
    [glfw.Press] or [glfw.Repeat]. *)
Inductive Action : Type := Release | Press | Repeat.

(** [struct { x, y float64 }] *)
Record Point : Type := mkPoint { x : float; y : float }.

(** [type Manager struct], without the window handle; a [glfw.Key] and a
    [glfw.MouseButton] are integers. *)
Record Manager : Type := mkManager {
  keys : gmap Z bool;
  prevKeys : gmap Z bool;
  mousePos : Point;
  prevMousePos : Point;
  mouseButtons : gmap Z bool;
  prevMouseButtons : gmap Z bool;
  scrollX : float;
  scrollY : float
}.

Definition NewManager : Manager :=
  {| keys := ∅; prevKeys := ∅;
     mousePos := {| x := 0; y := 0 |}; prevMousePos := {| x := 0; y := 0 |};
     mouseButtons := ∅; prevMouseButtons := ∅;
     scrollX := 0; scrollY := 0 |}.

(** [m[key]] on a [map[...]bool]: false when the key is missing. *)
Definition state (m : gmap Z bool) (key : Z) : bool := default false (m !! key).

(** The loops of [Update]: every entry of [src] is written to [dst]. *)
Definition copyStates (src dst : gmap Z bool) : gmap Z bool :=
  foldl (λ d kv, <[kv.1 := kv.2]> d) dst (map_to_list src).

Definition Update (m : Manager) : Manager :=
  {| keys := keys m;
     prevKeys := copyStates (keys m) (prevKeys m);
     mousePos := mousePos m;
     prevMousePos := {| x := x (mousePos m); y := y (mousePos m) |};
     mouseButtons := mouseButtons m;
     prevMouseButtons := copyStates (mouseButtons m) (prevMouseButtons m);
     scrollX := 0;
     scrollY := 0 |}.

Definition IsKeyPressed (key : Z) (m : Manager) : bool := state (keys m) key.

Definition IsKeyJustPressed (key : Z) (m : Manager) : bool :=
  state (keys m) key && negb (state (prevKeys m) key).

Definition IsKeyJustReleased (key : Z) (m : Manager) : bool :=
  negb (state (keys m) key) && state (prevKeys m) key.

Definition IsMouseButtonPressed (button : Z) (m : Manager) : bool :=
  state (mouseButtons m) button.

Definition IsMouseButtonJustPressed (button : Z) (m : Manager) : bool :=
  state (mouseButtons m) button && negb (state (prevMouseButtons m) button).

Definition IsMouseButtonJustReleased (button : Z) (m : Manager) : bool :=
  negb (state (mouseButtons m) button) && state (prevMouseButtons m) button.

Definition GetMousePosition (m : Manager) : float * float :=
  (x (mousePos m), y (mousePos m)).

Definition GetMouseDelta (m : Manager) : float * float :=
  (x (mousePos m) - x (prevMousePos m), y (mousePos m) - y (prevMousePos m)).

Definition GetScroll (m : Manager) : float * float := (scrollX m, scrollY m).

(** The callbacks, without the parameters they do not read (the window,
    the scancode, the modifier keys). *)
Definition keyCallback (key : Z) (action : Action) (m : Manager) : Manager :=
  match action with
  | Press =>
      {| keys := <[key := true]> (keys m); prevKeys := prevKeys m;
         mousePos := mousePos m; prevMousePos := prevMousePos m;
         mouseButtons := mouseButtons m; prevMouseButtons := prevMouseButtons m;
         scrollX := scrollX m; scrollY := scrollY m |}
  | Release =>
      {| keys := <[key := false]> (keys m); prevKeys := prevKeys m;
         mousePos := mousePos m; prevMousePos := prevMousePos m;
         mouseButtons := mouseButtons m; prevMouseButtons := prevMouseButtons m;
         scrollX := scrollX m; scrollY := scrollY m |}
  | Repeat => m
  end.

Definition mouseButtonCallback (button : Z) (action : Action) (m : Manager) : Manager :=
  match action with
  | Press =>
      {| keys := keys m; prevKeys := prevKeys m;
         mousePos := mousePos m; prevMousePos := prevMousePos m;
         mouseButtons := <[button := true]> (mouseButtons m);
         prevMouseButtons := prevMouseButtons m;
         scrollX := scrollX m; scrollY := scrollY m |}
  | Release =>
      {| keys := keys m; prevKeys := prevKeys m;
         mousePos := mousePos m; prevMousePos := prevMousePos m;
         mouseButtons := <[button := false]> (mouseButtons m);
         prevMouseButtons := prevMouseButtons m;
         scrollX := scrollX m; scrollY := scrollY m |}
  | Repeat => m
  end.

Definition cursorPosCallback (xpos ypos : float) (m : Manager) : Manager :=
  {| keys := keys m; prevKeys := prevKeys m;
     mousePos := {| x := xpos; y := ypos |}; prevMousePos := prevMousePos m;
     mouseButtons := mouseButtons m; prevMouseButtons := prevMouseButtons m;
     scrollX := scrollX m; scrollY := scrollY m |}.

Definition scrollCallback (xoffset yoffset : float) (m : Manager) : Manager :=
  {| keys := keys m; prevKeys := prevKeys m;
     mousePos := mousePos m; prevMousePos := prevMousePos m;
     mouseButtons := mouseButtons m; prevMouseButtons := prevMouseButtons m;
     scrollX := xoffset; scrollY := yoffset |}.

(** *** What happens to a manager *)

Inductive Event : Type :=
| KeyEvent (key : Z) (action : Action)
| ButtonEvent (button : Z) (action : Action)
| CursorEvent (xpos ypos : float)
| ScrollEvent (xoffset yoffset : float)
| Frame.

Definition handle (m : Manager) (ev : Event) : Manager :=
  match ev with
  | KeyEvent key action => keyCallback key action m
  | ButtonEvent button action => mouseButtonCallback button action m
  | CursorEvent xpos ypos => cursorPosCallback xpos ypos m
  | ScrollEvent xoffset yoffset => scrollCallback xoffset yoffset m
  | Frame => Update m
  end.

(** The manager after the events [evs], the first first. *)
Definition after (evs : list Event) (m : Manager) : Manager := foldl handle m evs.

(** The event changes the state of the key. *)
Definition changes_key (key : Z) (ev : Event) : Prop :=
  ev = KeyEvent key Press ∨ ev = KeyEvent key Release.

(** A key of [prev] that [cur] does not hold is recorded as up. *)
Definition prev_within (cur prev : gmap Z bool) : Prop :=
  ∀ key, cur !! key = None → state prev key = false.

Definition tidy (m : Manager) : Prop :=
  prev_within (keys m) (prevKeys m) ∧
  prev_within (mouseButtons m) (prevMouseButtons m).

Definition is_Frame (ev : Event) : bool :=
  match ev with Frame => true | _ => false end.

Definition is_CursorEvent (ev : Event) : bool :=
  match ev with CursorEvent _ _ => true | _ => false end.

Definition changes_button (button : Z) (ev : Event) : Prop :=
  ev = ButtonEvent button Press ∨ ev = ButtonEvent button Release.

Definition is_Press (action : Action) : bool :=
  match action with Press => true | _ => false end.

(** *** Examples *)

(** Two frames with a tap of key 32 between them. *)
Definition tap : list Event :=
  [Frame; KeyEvent 32 Press; KeyEvent 32 Release; Frame].

Definition moved : Manager := cursorPosCallback 3 4 NewManager.

End Input.

(** * The audio manager (pkg/audio/manager.go) *)

Module Audio.

Local Open Scope float_scope.

(** [type Sound struct] *)
Record Sound : Type := mkSound {
  ID : string;
  Data : list Byte.byte;
  Playing : bool;
  Volume : float;
  Loop : bool
}.

(** [type Manager struct]; [context] is nil until [Init], and holds the
    [initialized] flag of the [AudioContext] then. A sound is reached
    through the map only, so the map holds the sounds themselves. Every
    method that returns an [error] returns nil. *)
Record Manager : Type := mkManager {
  context : option bool;
  sounds : gmap string Sound
}.

Definition NewManager : Manager := {| context := None; sounds := ∅ |}.

Definition Init (m : Manager) : Manager :=
  {| context := Some true; sounds := sounds m |}.

(** [Shutdown]: the sounds the loop stops are out of reach once the map
    is replaced. *)
Definition Shutdown (m : Manager) : Manager :=
  {| context := context m; sounds := ∅ |}.

Definition LoadSound (id filepath : string) (m : Manager) : Manager :=
  {| context := context m;
     sounds :=
       <[id := {| ID := id; Data := []; Playing := false; Volume := 1; Loop := false |}]>
         (sounds m) |}.

Definition setPlaying (playing : bool) (s : Sound) : Sound :=
  {| ID := ID s; Data := Data s; Playing := playing; Volume := Volume s; Loop := Loop s |}.

Definition setVolume (volume : float) (s : Sound) : Sound :=
  {| ID := ID s; Data := Data s; Playing := Playing s; Volume := volume; Loop := Loop s |}.

Definition setLoop (loop : bool) (s : Sound) : Sound :=
  {| ID := ID s; Data := Data s; Playing := Playing s; Volume := Volume s; Loop := loop |}.

Definition PlaySound (id : string) (m : Manager) : Manager :=
  match sounds m !! id with
  | Some sound =>
      {| context := context m; sounds := <[id := setPlaying true sound]> (sounds m) |}
  | None => m
  end.

Definition StopSound (id : string) (m : Manager) : Manager :=
  match sounds m !! id with
  | Some sound =>
      {| context := context m; sounds := <[id := setPlaying false sound]> (sounds m) |}
  | None => m
  end.

(** The clamp of [SetVolume]. *)
Definition clamp (volume : float) : float :=
  if volume <? 0 then 0 else if 1 <? volume then 1 else volume.

Definition SetVolume (id : string) (volume : float) (m : Manager) : Manager :=
  match sounds m !! id with
  | Some sound =>
      {| context := context m;
         sounds := <[id := setVolume (clamp volume) sound]> (sounds m) |}
  | None => m
  end.

Definition SetLoop (id : string) (loop : bool) (m : Manager) : Manager :=
  match sounds m !! id with
  | Some sound =>
      {| context := context m; sounds := <[id := setLoop loop sound]> (sounds m) |}
  | None => m
  end.

Definition IsPlaying (id : string) (m : Manager) : bool :=
  match sounds m !! id with
  | Some sound => Playing sound
  | None => false
  end.

Definition GetVolume (id : string) (m : Manager) : float :=
  match sounds m !! id with
  | Some sound => Volume sound
  | None => 0
  end.

(** *** Sequences of calls *)

Inductive Op : Type :=
| OInit
| OShutdown
| OLoadSound (id filepath : string)
| OPlaySound (id : string)
| OStopSound (id : string)
| OSetVolume (id : string) (volume : float)
| OSetLoop (id : string) (loop : bool).

Definition step (m : Manager) (op : Op) : Manager :=
  match op with
  | OInit => Init m
  | OShutdown => Shutdown m
  | OLoadSound id filepath => LoadSound id filepath m
  | OPlaySound id => PlaySound id m
  | OStopSound id => StopSound id m
  | OSetVolume id volume => SetVolume id volume m
  | OSetLoop id loop => SetLoop id loop m
  end.

Definition run (ops : list Op) (m : Manager) : Manager := foldl step m ops.

(** The volume is a number between 0 and 1. *)
Definition in_range (volume : float) : bool := (0 <=? volume) && (volume <=? 1).

(** The call does not pass NaN as a volume. *)
Definition passes_number (op : Op) : bool :=
  match op with
  | OSetVolume _ volume => negb (is_nan volume)
  | _ => true
  end.

Definition volumes_ok (m : Manager) : Prop :=
  ∀ id sound, sounds m !! id = Some sound → in_range (Volume sound) = true.

Definition loads (id : string) (op : Op) : Prop := ∃ filepath, op = OLoadSound id filepath.

(** The call can change whether the sound [id] plays. *)
Definition touches (id : string) (op : Op) : Prop :=
  op = OShutdown ∨ loads id op ∨ op = OPlaySound id ∨ op = OStopSound id.

(** *** Examples *)

Definition jingle : list Op :=
  [OInit; OLoadSound "jingle" "jingle.wav"; OSetVolume "jingle" 3; OPlaySound "jingle";
   OSetLoop "jingle" true].

End Audio.

(** * Properties of the ECS world *)

Module ECSFacts.
Import ECS.

Section world.
Context {C S : Type} `{!Component C, !System S}.

Local Abbreviation World := (World C S).
Local Abbreviation Op := (Op C S).

Implicit Types (w : World) (op : Op) (ops : list Op).
Implicit Types (i j : EntityID) (ty : string) (c : C) (order : list EntityID).

(** *** Visiting orders *)

Lemma entity_order_spec (w : World) (order : list EntityID) :
  entity_order w order ↔
  NoDup order ∧ ∀ i, i ∈ order ↔ is_Some (entities w !! i).
Proof.
  unfold entity_order.
  assert (Hkeys : ∀ i, i ∈ (map_to_list (entities w)).*1 ↔ is_Some (entities w !! i)).
  { intros i. rewrite list_elem_of_fmap. split.
    - intros [[k e] [-> Hin]]. apply elem_of_map_to_list in Hin. by exists e.
    - intros [e He]. exists (i, e). split; [done|]. by apply elem_of_map_to_list. }
  split.
  - intros Hp. split.
    + rewrite Hp. apply NoDup_fst_map_to_list.
    + intros i. by rewrite Hp.
  - intros [Hnd Hin]. apply NoDup_Permutation; [done | apply NoDup_fst_map_to_list |].
    intros i. by rewrite Hin, Hkeys.
Qed.

Lemma elem_of_collectEntities (ty : string) (w : World) (order : list EntityID) (i : EntityID) :
  i ∈ collectEntities ty w order ↔
  i ∈ order ∧ ∃ e, entities w !! i = Some e ∧ is_Some (Components e !! ty).
Proof.
  induction order as [|k order IH]; simpl.
  - split; [by intros ?%elem_of_nil | by intros [?%elem_of_nil _]].
  - destruct (entities w !! k) as [e|] eqn:Hk.
    + destruct (Components e !! ty) as [c|] eqn:Hc.
      * rewrite !elem_of_cons, IH. split.
        -- intros [-> | [? ?]]; [|by auto]. split; [by left|]. by exists e; rewrite Hc.
        -- intros [[-> | ?] ?]; by auto.
      * rewrite IH, elem_of_cons. split; [by intros [? ?]; auto|].
        intros [[-> | ?] Hex]; [|by auto].
        destruct Hex as (e' & He' & Hs). rewrite Hk in He'. injection He' as <-.
        rewrite Hc in Hs. by destruct Hs.
    + rewrite IH, elem_of_cons. split; [by intros [? ?]; auto|].
      intros [[-> | ?] Hex]; [|by auto].
      destruct Hex as (e' & He' & _). congruence.
Qed.

Lemma collectEntities_sublist (ty : string) (w : World) (order : list EntityID) :
  collectEntities ty w order `sublist_of` order.
Proof.
  induction order as [|k order IH]; simpl; [done|].
  destruct (entities w !! k) as [e|]; [destruct (Components e !! ty)|];
    by constructor.
Qed.

(** *** AddComponent and GetComponent *)

Lemma AddComponent_entity (i : EntityID) (c : C) (w : World) :
  is_Some (entities w !! i) → is_Some (entities (AddComponent i c w) !! i).
Proof.
  intros [e He]. unfold AddComponent. rewrite He. simpl.
  rewrite lookup_insert_eq. by eexists.
Qed.

Lemma GetComponent_AddComponent (i : EntityID) (c : C) (w : World) :
  is_Some (entities w !! i) →
  GetComponent i (GetType c) (AddComponent i c w) = Some c.
Proof.
  intros [e He]. unfold GetComponent, AddComponent. rewrite He. simpl.
  rewrite lookup_insert_eq. simpl. by rewrite lookup_insert_eq.
Qed.

Lemma AddComponent_fold_entity (i : EntityID) (cs : list C) (w : World) :
  is_Some (entities w !! i) →
  is_Some (entities (foldl (λ w' c, AddComponent i c w') w cs) !! i).
Proof.
  revert w. induction cs as [|c cs IH]; intros w Hw; simpl; [done|].
  apply IH. by apply AddComponent_entity.
Qed.

(** *** RemoveSystem *)

Lemma removeFirstNamed_absent (name : string) (l : list S) :
  Forall (λ s, GetName s ≠ name) l → removeFirstNamed name l = l.
Proof.
  induction 1 as [|s l Hs _ IH]; simpl; [done|].
  destruct (decide (GetName s = name)); [done|]. by rewrite IH.
Qed.

Lemma removeFirstNamed_first (name : string) (l1 l2 : list S) (s : S) :
  Forall (λ s', GetName s' ≠ name) l1 → GetName s = name →
  removeFirstNamed name (l1 ++ s :: l2) = l1 ++ l2.
Proof.
  intros Hl1 Hs. induction Hl1 as [|s' l1 Hs' _ IH]; simpl.
  - by destruct (decide (GetName s = name)).
  - destruct (decide (GetName s' = name)); [done|]. by rewrite IH.
Qed.

Lemma removeFirstNamed_sublist (name : string) (l : list S) :
  removeFirstNamed name l `sublist_of` l.
Proof.
  induction l as [|s l IH]; simpl; [done|].
  destruct (decide (GetName s = name)); by constructor.
Qed.

(** *** What each call does to the entity table and to the counter *)

Lemma removeComponentFromList_entities i ty w :
  entities (removeComponentFromList i ty w) = entities w.
Proof.
  unfold removeComponentFromList.
  destruct (components w !! ty) as [l|]; [|done].
  by destruct (remove_first_non_nil l).
Qed.

Lemma removeComponentFromList_systems i ty w :
  systems (removeComponentFromList i ty w) = systems w.
Proof.
  unfold removeComponentFromList.
  destruct (components w !! ty) as [l|]; [|done].
  by destruct (remove_first_non_nil l).
Qed.

Lemma removeComponentFromList_next i ty w :
  nextEntityID (removeComponentFromList i ty w) = nextEntityID w.
Proof.
  unfold removeComponentFromList.
  destruct (components w !! ty) as [l|]; [|done].
  by destruct (remove_first_non_nil l).
Qed.

Lemma removeAllFromList_entities i tys w :
  entities (removeAllFromList i tys w) = entities w.
Proof.
  unfold removeAllFromList. revert w.
  induction tys as [|ty tys IH]; intros w; simpl; [done|].
  by rewrite IH, removeComponentFromList_entities.
Qed.

Lemma removeAllFromList_systems i tys w :
  systems (removeAllFromList i tys w) = systems w.
Proof.
  unfold removeAllFromList. revert w.
  induction tys as [|ty tys IH]; intros w; simpl; [done|].
  by rewrite IH, removeComponentFromList_systems.
Qed.

Lemma removeAllFromList_next i tys w :
  nextEntityID (removeAllFromList i tys w) = nextEntityID w.
Proof.
  unfold removeAllFromList. revert w.
  induction tys as [|ty tys IH]; intros w; simpl; [done|].
  by rewrite IH, removeComponentFromList_next.
Qed.

Lemma DestroyEntity_entities i w :
  entities (DestroyEntity i w) = delete i (entities w).
Proof.
  unfold DestroyEntity. destruct (entities w !! i) as [e|] eqn:He; simpl.
  - by rewrite removeAllFromList_entities.
  - symmetry. by apply delete_id.
Qed.

Lemma DestroyEntity_next i w :
  nextEntityID (DestroyEntity i w) = nextEntityID w.
Proof.
  unfold DestroyEntity. destruct (entities w !! i) as [e|]; simpl; [|done].
  by rewrite removeAllFromList_next.
Qed.

Lemma AddComponent_next i c w :
  nextEntityID (AddComponent i c w) = nextEntityID w.
Proof. unfold AddComponent. by destruct (entities w !! i). Qed.

Lemma AddComponent_lookup_None i c w j :
  entities w !! j = None → entities (AddComponent i c w) !! j = None.
Proof.
  intros Hj. unfold AddComponent.
  destruct (entities w !! i) as [e|] eqn:He; simpl; [|done].
  rewrite lookup_insert_ne; [done|]. intros ->. congruence.
Qed.

Lemma AddComponent_is_Some i c w j :
  is_Some (entities (AddComponent i c w) !! j) → is_Some (entities w !! j).
Proof.
  destruct (entities w !! j) eqn:Hj; [by eauto|].
  by rewrite AddComponent_lookup_None.
Qed.

Lemma RemoveComponent_next i ty w :
  nextEntityID (RemoveComponent i ty w) = nextEntityID w.
Proof.
  unfold RemoveComponent. destruct (entities w !! i) as [e|]; [|done].
  destruct (Components e !! ty); [|done].
  by rewrite removeComponentFromList_next.
Qed.

Lemma RemoveComponent_lookup_None i ty w j :
  entities w !! j = None → entities (RemoveComponent i ty w) !! j = None.
Proof.
  intros Hj. unfold RemoveComponent.
  destruct (entities w !! i) as [e|] eqn:He; [|done].
  destruct (Components e !! ty); [|done].
  rewrite removeComponentFromList_entities. simpl.
  rewrite lookup_insert_ne; [done|]. intros ->. congruence.
Qed.

Lemma RemoveComponent_is_Some i ty w j :
  is_Some (entities (RemoveComponent i ty w) !! j) → is_Some (entities w !! j).
Proof.
  destruct (entities w !! j) eqn:Hj; [by eauto|].
  by rewrite RemoveComponent_lookup_None.
Qed.

Lemma uint64_incr_small (x : N) :
  (x + 1 < uint64_modulus)%N → uint64_incr x = (x + 1)%N.
Proof. intros H. unfold uint64_incr. by apply N.mod_small. Qed.

(** *** The order of the loop in [DestroyEntity] is immaterial *)

Lemma removeComponentFromList_comm i ty1 ty2 w :
  removeComponentFromList i ty1 (removeComponentFromList i ty2 w) =
  removeComponentFromList i ty2 (removeComponentFromList i ty1 w).
Proof.
  destruct (decide (ty1 = ty2)) as [->|Hne]; [done|].
  unfold removeComponentFromList.
  destruct (components w !! ty1) as [l1|] eqn:H1;
    destruct (components w !! ty2) as [l2|] eqn:H2; simpl;
    try destruct (remove_first_non_nil l1) as [l1'|] eqn:Hr1;
    try destruct (remove_first_non_nil l2) as [l2'|] eqn:Hr2; simpl;
    rewrite ?lookup_insert_ne by done; rewrite ?H1, ?H2, ?Hr1, ?Hr2; try done.
  f_equal. by apply insert_insert_ne.
Qed.

Lemma removeAllFromList_perm i tys1 tys2 w :
  tys1 ≡ₚ tys2 → removeAllFromList i tys1 w = removeAllFromList i tys2 w.
Proof.
  unfold removeAllFromList. intros Hp. revert w.
  induction Hp as [|ty tys1 tys2 _ IH|ty1 ty2 tys|tys1 tys2 tys3 _ IH1 _ IH2];
    intros w; simpl.
  - done.
  - apply IH.
  - by rewrite removeComponentFromList_comm.
  - by rewrite IH1.
Qed.

(** *** Sequences of calls *)

Lemma step_next op w :
  nextEntityID (step op w).1 =
  if is_create op then uint64_incr (nextEntityID w) else nextEntityID w.
Proof.
  destruct op; simpl;
    auto using DestroyEntity_next, AddComponent_next, RemoveComponent_next.
Qed.

Lemma step_returns op w :
  (step op w).2 = if is_create op then Some (nextEntityID w) else None.
Proof. by destruct op. Qed.

Lemma step_is_Some op w j :
  is_Some (entities (step op w).1 !! j) →
  is_Some (entities w !! j) ∨ (is_create op = true ∧ j = nextEntityID w).
Proof.
  destruct op; simpl.
  - destruct (decide (j = nextEntityID w)) as [->|Hne]; [by auto|].
    rewrite lookup_insert_ne by done. by auto.
  - rewrite DestroyEntity_entities. intros [e He].
    apply lookup_delete_Some in He as [_ He]. left. by exists e.
  - intros H. left. by eapply AddComponent_is_Some.
  - intros H. left. by eapply RemoveComponent_is_Some.
  - by auto.
  - by auto.
Qed.

Lemma run_world_cons op ops w :
  (run (op :: ops) w).1 = (run ops (step op w).1).1.
Proof.
  simpl. destruct (step op w) as [w1 r]. simpl.
  by destruct (run ops w1) as [w2 ids].
Qed.

Lemma run_ids_cons op ops w :
  (run (op :: ops) w).2 =
  from_option (λ i, i :: (run ops (step op w).1).2) (run ops (step op w).1).2
    (step op w).2.
Proof.
  simpl. destruct (step op w) as [w1 r]. simpl.
  by destruct (run ops w1) as [w2 ids].
Qed.

Lemma creates_cons op ops : creates (op :: ops) = creates [op] + creates ops.
Proof. simpl. lia. Qed.

(** While the counter does not wrap, the IDs handed out are the counter's
    successive values. *)
Lemma run_ids_consecutive ops w :
  (nextEntityID w + N.of_nat (creates ops) ≤ uint64_modulus)%N →
  (run ops w).2 = (λ k, (nextEntityID w + N.of_nat k)%N) <$> seq 0 (creates ops).
Proof.
  revert w. induction ops as [|op ops IH]; intros w Hle; [done|].
  rewrite run_ids_cons, step_returns. simpl in Hle |- *.
  destruct (is_create op) eqn:Hop; simpl in *.
  - rewrite N.add_0_r. f_equal.
    rewrite <- fmap_S_seq, <- list_fmap_compose.
    destruct (decide (creates ops = 0)) as [Hn|Hn].
    + rewrite IH; [by rewrite Hn|].
      rewrite step_next, Hop, Hn. unfold uint64_incr.
      pose proof (N.mod_upper_bound (nextEntityID w + 1) uint64_modulus).
      unfold uint64_modulus in *. lia.
    + assert (uint64_incr (nextEntityID w) = (nextEntityID w + 1)%N) as Hincr.
      { apply uint64_incr_small. lia. }
      rewrite IH; rewrite step_next, Hop, Hincr; [|lia].
      apply list_fmap_ext. intros _ k _. simpl. lia.
  - rewrite IH; rewrite step_next, Hop; [done | lia].
Qed.

Lemma consecutive_sorted (a : N) (s n : nat) :
  StronglySorted N.lt ((λ k, (a + N.of_nat k)%N) <$> seq s n).
Proof.
  revert s. induction n as [|n IH]; intros s; simpl; constructor; [apply IH|].
  apply Forall_fmap, Forall_forall. intros k Hk%elem_of_seq. simpl. lia.
Qed.

Lemma sorted_lt_NoDup (l : list N) : StronglySorted N.lt l → NoDup l.
Proof.
  induction 1 as [|x l _ IH Hx]; constructor; [|done].
  intros Hin. rewrite Forall_forall in Hx. specialize (Hx _ Hin). lia.
Qed.

(** *** The lifetime of a world *)

Lemma tracks_NewWorld : tracks (NewWorld : World) 0.
Proof.
  split; [done|]. split; [done|].
  intros i [e He]. simpl in He. by rewrite lookup_empty in He.
Qed.

Lemma step_tracks op w n :
  tracks w n →
  (n + N.of_nat (creates [op]) ≤ uint64_modulus)%N →
  tracks (step op w).1 (n + N.of_nat (creates [op])).
Proof.
  intros (Hn & Hnext & Hkeys) Hle. simpl in *.
  split; [done|]. split.
  - rewrite step_next, Hnext. destruct (is_create op); simpl in *.
    + unfold uint64_incr. by rewrite (N.mod_small n) by lia.
    + f_equal. lia.
  - intros i [Hi | [Hop ->]]%step_is_Some.
    + specialize (Hkeys _ Hi). lia.
    + rewrite Hop in *. simpl in *. rewrite Hnext, N.mod_small; lia.
Qed.

Lemma run_tracks ops w n :
  tracks w n →
  (n + N.of_nat (creates ops) ≤ uint64_modulus)%N →
  tracks (run ops w).1 (n + N.of_nat (creates ops)).
Proof.
  revert w n. induction ops as [|op ops IH]; intros w n Hw Hle.
  - simpl. by rewrite N.add_0_r.
  - rewrite run_world_cons. rewrite creates_cons, Nat2N.inj_add, N.add_assoc in Hle |- *.
    apply IH; [|done]. apply step_tracks; [done|]. lia.
Qed.

Lemma step_absent op w n i :
  tracks w n →
  (n + N.of_nat (creates [op]) ≤ uint64_modulus)%N →
  (i < n)%N → entities w !! i = None →
  entities (step op w).1 !! i = None.
Proof.
  intros (Hn & Hnext & Hkeys) Hle Hi Hnone.
  apply eq_None_not_Some. intros [Hold | [Hop ->]]%step_is_Some.
  - rewrite Hnone in Hold. by destruct Hold.
  - simpl in Hle. rewrite Hop in Hle. simpl in Hle.
    rewrite Hnext, N.mod_small in Hi; lia.
Qed.

Lemma run_absent ops w n i :
  tracks w n →
  (n + N.of_nat (creates ops) ≤ uint64_modulus)%N →
  (i < n)%N → entities w !! i = None →
  entities (run ops w).1 !! i = None.
Proof.
  revert w n. induction ops as [|op ops IH]; intros w n Hw Hle Hi Hnone; [done|].
  rewrite run_world_cons. rewrite creates_cons, Nat2N.inj_add, N.add_assoc in Hle.
  apply (IH _ (n + N.of_nat (creates [op]))%N).
  - apply step_tracks; [done|]. lia.
  - done.
  - lia.
  - eapply step_absent; [done| |done..]. lia.
Qed.

Lemma DestroyEntity_tracks i w n : tracks w n → tracks (DestroyEntity i w) n.
Proof.
  intros (Hn & Hnext & Hkeys). split; [done|]. split.
  - by rewrite DestroyEntity_next.
  - intros j [e He]. rewrite DestroyEntity_entities in He.
    apply lookup_delete_Some in He as [_ He]. apply Hkeys. by exists e.
Qed.

Lemma GetComponent_absent i ty w :
  entities w !! i = None → GetComponent i ty w = None.
Proof. intros H. unfold GetComponent. by rewrite H. Qed.

Lemma GetEntitiesWithComponent_absent order i ty w :
  entities w !! i = None → i ∉ GetEntitiesWithComponent order ty w.
Proof.
  intros H (_ & e & He & _)%elem_of_collectEntities. congruence.
Qed.

(** [CreateEntity] directly followed by [DestroyEntity] of the new ID, in a
    world without entities: only the counter moves. *)
Lemma create_destroy_empty (comps : gmap string (list (option C))) (sys : list S) (n : N) :
  create_destroy (mkWorld ∅ comps sys n) = mkWorld ∅ comps sys (uint64_incr n).
Proof.
  unfold create_destroy, CreateEntity, DestroyEntity. simpl.
  rewrite lookup_insert_eq. simpl.
  rewrite map_to_list_empty. simpl. by rewrite delete_insert_eq, delete_empty.
Qed.

(** *** Worlds that differ in [Active] flags only *)

Lemma same_but_Active_lookup w1 w2 i :
  same_but_Active w1 w2 →
  (entities w1 !! i = None ∧ entities w2 !! i = None) ∨
  ∃ e1 e2, entities w1 !! i = Some e1 ∧ entities w2 !! i = Some e2 ∧
           ID e1 = ID e2 ∧ Components e1 = Components e2.
Proof.
  intros [Hent _]. specialize (Hent i).
  inversion Hent as [e1 e2 [? ?] H1 H2 | H1 H2]; [right | left]; [|done].
  by exists e1, e2.
Qed.

Lemma same_but_Active_is_Some w1 w2 i :
  same_but_Active w1 w2 →
  is_Some (entities w1 !! i) ↔ is_Some (entities w2 !! i).
Proof.
  intros H. destruct (same_but_Active_lookup _ _ i H)
    as [[-> ->] | (e1 & e2 & -> & -> & _)]; [done|].
  split; by eauto.
Qed.

Lemma same_but_Active_insert w1 w2 i e1 e2 :
  same_but_Active w1 w2 →
  ID e1 = ID e2 → Components e1 = Components e2 →
  same_but_Active
    (mkWorld (<[i := e1]> (entities w1)) (components w1) (systems w1) (nextEntityID w1))
    (mkWorld (<[i := e2]> (entities w2)) (components w2) (systems w2) (nextEntityID w2)).
Proof.
  intros (Hent & Hc & Hs & Hn) Hid Hcs. split; [|done]. intros j. simpl.
  destruct (decide (i = j)) as [->|Hne].
  - rewrite !lookup_insert_eq. by constructor.
  - rewrite !lookup_insert_ne by done. apply Hent.
Qed.

Lemma same_but_Active_delete w1 w2 i :
  same_but_Active w1 w2 →
  same_but_Active
    (mkWorld (delete i (entities w1)) (components w1) (systems w1) (nextEntityID w1))
    (mkWorld (delete i (entities w2)) (components w2) (systems w2) (nextEntityID w2)).
Proof.
  intros (Hent & Hc & Hs & Hn). split; [|done]. intros j. simpl.
  destruct (decide (i = j)) as [->|Hne].
  - rewrite !lookup_delete_eq. constructor.
  - rewrite !lookup_delete_ne by done. apply Hent.
Qed.

Lemma same_but_Active_removeComponentFromList w1 w2 i ty :
  same_but_Active w1 w2 →
  same_but_Active (removeComponentFromList i ty w1) (removeComponentFromList i ty w2).
Proof.
  intros H. pose proof H as (Hent & Hc & Hs & Hn).
  unfold removeComponentFromList. rewrite <- Hc.
  destruct (components w1 !! ty) as [l|]; [|done].
  destruct (remove_first_non_nil l) as [l'|]; [|done].
  split; [done|]. simpl. by rewrite Hc.
Qed.

Lemma same_but_Active_removeAllFromList w1 w2 i tys :
  same_but_Active w1 w2 →
  same_but_Active (removeAllFromList i tys w1) (removeAllFromList i tys w2).
Proof.
  unfold removeAllFromList. revert w1 w2.
  induction tys as [|ty tys IH]; intros w1 w2 H; simpl; [done|].
  by apply IH, same_but_Active_removeComponentFromList.
Qed.

Lemma same_but_Active_AddComponent w1 w2 i c :
  same_but_Active w1 w2 →
  same_but_Active (AddComponent i c w1) (AddComponent i c w2).
Proof.
  intros H. unfold AddComponent.
  destruct (same_but_Active_lookup _ _ i H)
    as [[-> ->] | (e1 & e2 & -> & -> & Hid & Hcs)]; [done|].
  pose proof H as (_ & Hc & _). rewrite <- Hc.
  apply (same_but_Active_insert
           (mkWorld (entities w1) _ (systems w1) (nextEntityID w1))
           (mkWorld (entities w2) _ (systems w2) (nextEntityID w2))).
  - destruct H as (? & ? & ? & ?). by split.
  - done.
  - simpl. by rewrite Hcs.
Qed.

Lemma same_but_Active_RemoveComponent w1 w2 i ty :
  same_but_Active w1 w2 →
  same_but_Active (RemoveComponent i ty w1) (RemoveComponent i ty w2).
Proof.
  intros H. unfold RemoveComponent.
  destruct (same_but_Active_lookup _ _ i H)
    as [[-> ->] | (e1 & e2 & -> & -> & Hid & Hcs)]; [done|].
  rewrite <- Hcs. destruct (Components e1 !! ty); [|done].
  apply same_but_Active_removeComponentFromList.
  by apply same_but_Active_insert.
Qed.

Lemma same_but_Active_DestroyEntity w1 w2 i :
  same_but_Active w1 w2 →
  same_but_Active (DestroyEntity i w1) (DestroyEntity i w2).
Proof.
  intros H. unfold DestroyEntity.
  destruct (same_but_Active_lookup _ _ i H)
    as [[-> ->] | (e1 & e2 & -> & -> & Hid & Hcs)]; [done|].
  rewrite <- Hcs.
  by apply same_but_Active_delete, same_but_Active_removeAllFromList.
Qed.

Lemma same_but_Active_GetComponent w1 w2 i ty :
  same_but_Active w1 w2 → GetComponent i ty w1 = GetComponent i ty w2.
Proof.
  intros H. unfold GetComponent.
  destruct (same_but_Active_lookup _ _ i H)
    as [[-> ->] | (e1 & e2 & -> & -> & Hid & Hcs)]; [done|].
  by rewrite Hcs.
Qed.

Lemma same_but_Active_collect w1 w2 order ty :
  same_but_Active w1 w2 →
  collectEntities ty w1 order = collectEntities ty w2 order.
Proof.
  intros H. induction order as [|i order IH]; simpl; [done|].
  destruct (same_but_Active_lookup _ _ i H)
    as [[-> ->] | (e1 & e2 & -> & -> & Hid & Hcs)]; [done|].
  by rewrite Hcs, IH.
Qed.

Lemma same_but_Active_order w1 w2 order :
  same_but_Active w1 w2 → entity_order w1 order ↔ entity_order w2 order.
Proof.
  intros H. rewrite !entity_order_spec.
  by setoid_rewrite (λ i, same_but_Active_is_Some w1 w2 i H).
Qed.

Lemma same_but_Active_count w1 w2 :
  same_but_Active w1 w2 → GetEntityCount w1 = GetEntityCount w2.
Proof.
  intros H. unfold GetEntityCount.
  rewrite <- !(size_dom (D := gset N)). f_equal.
  apply set_eq. intros i. rewrite !elem_of_dom.
  by apply same_but_Active_is_Some.
Qed.

Lemma same_but_Active_set_all_inactive w : same_but_Active w (set_all_inactive w).
Proof.
  split; [|done]. intros i. simpl. rewrite lookup_fmap.
  destruct (entities w !! i); by constructor.
Qed.

(** *** Wrapping the counter *)

Lemma run_churn (k : nat) (n : N) (comps : gmap string (list (option C)))
    (sys : list S) ops :
  (n < uint64_modulus)%N →
  (run (churn k n ++ ops) (mkWorld ∅ comps sys n)).1 =
    (run ops (mkWorld ∅ comps sys ((n + N.of_nat k) mod uint64_modulus))).1 ∧
  (run (churn k n ++ ops) (mkWorld ∅ comps sys n)).2 =
    ((λ r : nat, ((n + N.of_nat r) mod uint64_modulus)%N) <$> seq 0 k) ++
    (run ops (mkWorld ∅ comps sys ((n + N.of_nat k) mod uint64_modulus))).2.
Proof.
  revert n. induction k as [|k IH]; intros n Hn.
  - simpl. by rewrite N.add_0_r, N.mod_small.
  - assert (uint64_incr n < uint64_modulus)%N as Hn'.
    { by apply N.mod_upper_bound. }
    destruct (IH (uint64_incr n) Hn') as [IH1 IH2].
    assert (((uint64_incr n + N.of_nat k) mod uint64_modulus =
             (n + N.of_nat (Datatypes.S k)) mod uint64_modulus)%N) as Hmod.
    { unfold uint64_incr. rewrite N.Div0.add_mod_idemp_l. f_equal. lia. }
    assert ((step (OpDestroyEntity n) (step OpCreateEntity (mkWorld ∅ comps sys n)).1).1
            = mkWorld ∅ comps sys (uint64_incr n)) as Hstep.
    { apply (create_destroy_empty comps sys n). }
    change (churn (Datatypes.S k) n ++ ops)
      with (OpCreateEntity :: OpDestroyEntity n :: (churn k (uint64_incr n) ++ ops)).
    split.
    + rewrite !run_world_cons, Hstep, IH1. by rewrite Hmod.
    + rewrite !run_ids_cons, Hstep, IH2, Hmod. simpl.
      rewrite N.add_0_r, (N.mod_small n) by done. f_equal. f_equal.
      rewrite <- fmap_S_seq, <- list_fmap_compose.
      apply list_fmap_ext. intros _ r _. simpl.
      unfold uint64_incr. rewrite N.Div0.add_mod_idemp_l. f_equal. lia.
Qed.

(** ** The claims about the ECS world *)

(** C2 (as amended). In every sequence of calls on a world in which the
    entity counter does not wrap (the counter's value plus the number of
    [CreateEntity] calls stays within [2^64]; from [NewWorld], at most
    [2^64] creations), the IDs returned by the successive [CreateEntity]
    calls are strictly increasing, hence pairwise different, whatever
    [DestroyEntity] and other calls come in between. *)
Theorem CreateEntity_ids_increasing ops w :
  (nextEntityID w + N.of_nat (creates ops) ≤ uint64_modulus)%N →
  StronglySorted N.lt (run ops w).2 ∧ NoDup (run ops w).2.
Proof.
  intros Hle.
  assert (StronglySorted N.lt (run ops w).2) as Hs.
  { rewrite run_ids_consecutive by done. apply consecutive_sorted. }
  split; [done | by apply sorted_lt_NoDup].
Qed.

(** C3. For an existing entity, after any number of [AddComponent] calls on
    it that ends with a component [c] of type [ty], [GetComponent] for
    [ty] returns [c]; in particular when all the components added have
    type [ty]. *)
Theorem GetComponent_returns_latest w i ty (cs : list C) c :
  is_Some (entities w !! i) →
  GetType c = ty →
  GetComponent i ty (foldl (λ w' c', AddComponent i c' w') w (cs ++ [c])) = Some c.
Proof.
  intros Hi <-. rewrite foldl_app. simpl.
  by apply GetComponent_AddComponent, AddComponent_fold_entity.
Qed.

(** C4. Whatever order the entity table is visited in,
    [GetEntitiesWithComponent ty] returns, each once, exactly the IDs of
    the stored entities whose own component map has the key [ty]; the
    global per-type lists play no part in the result. *)
Theorem GetEntitiesWithComponent_exact w order ty :
  entity_order w order →
  (∀ i, i ∈ GetEntitiesWithComponent order ty w ↔
        ∃ e, entities w !! i = Some e ∧ is_Some (Components e !! ty)) ∧
  NoDup (GetEntitiesWithComponent order ty w) ∧
  (∀ comps,
     GetEntitiesWithComponent order ty
       (mkWorld (entities w) comps (systems w) (nextEntityID w)) =
     GetEntitiesWithComponent order ty w).
Proof.
  intros [Hnd Hin]%entity_order_spec. unfold GetEntitiesWithComponent.
  split; [|split].
  - intros i. rewrite elem_of_collectEntities, Hin. split.
    + by intros [_ ?].
    + intros (e & He & Hc). split; [by exists e | by exists e].
  - eapply sublist_NoDup; [done | apply collectEntities_sublist].
  - intros comps. clear. induction order as [|i order IH]; simpl; [done|].
    by rewrite IH.
Qed.

(** C7 (as amended). In the lifetime of a world that creates at most
    [2^64] entities (the counter does not wrap), once an entity has been
    destroyed [GetComponent] returns nil for its ID and every type, at once
    and after every later sequence of calls, and [GetEntitiesWithComponent]
    does not hold the ID after any later sequence of calls. *)
Theorem DestroyEntity_never_again ops0 ops i :
  (N.of_nat (creates ops0 + creates ops) ≤ uint64_modulus)%N →
  is_Some (entities (run ops0 (NewWorld : World)).1 !! i) →
  (∀ ty, GetComponent i ty (DestroyEntity i (run ops0 NewWorld).1) = None) ∧
  (∀ ty, GetComponent i ty (run ops (DestroyEntity i (run ops0 NewWorld).1)).1 = None) ∧
  (∀ order ty,
     i ∉ GetEntitiesWithComponent order ty
           (run ops (DestroyEntity i (run ops0 NewWorld).1)).1).
Proof.
  intros Hle Hi. rewrite Nat2N.inj_add in Hle.
  assert (tracks (run ops0 (NewWorld : World)).1 (0 + N.of_nat (creates ops0))) as Ht.
  { apply run_tracks; [apply tracks_NewWorld | lia]. }
  rewrite N.add_0_l in Ht.
  assert (i < N.of_nat (creates ops0))%N as Hlt by by apply Ht.
  assert (entities (DestroyEntity i (run ops0 (NewWorld : World)).1) !! i = None) as Hnow.
  { rewrite DestroyEntity_entities. apply lookup_delete_eq. }
  assert (entities (run ops (DestroyEntity i (run ops0 (NewWorld : World)).1)).1 !! i = None)
    as Hlater.
  { eapply run_absent; [by apply DestroyEntity_tracks | lia | done..]. }
  split; [|split].
  - intros ty. by apply GetComponent_absent.
  - intros ty. by apply GetComponent_absent.
  - intros order ty. by apply GetEntitiesWithComponent_absent.
Qed.

(** C8 (as amended). [RemoveSystem name] removes the first registered
    system whose [GetName] is [name] and no other, keeps the remaining
    systems in their order, touches nothing else in the world, and leaves
    the world as it is when no system has that name. *)
Theorem RemoveSystem_removes_first w (name : string) :
  (∀ l1 s l2,
     systems w = l1 ++ s :: l2 →
     Forall (λ s', GetName s' ≠ name) l1 → GetName s = name →
     systems (RemoveSystem name w) = l1 ++ l2) ∧
  (Forall (λ s, GetName s ≠ name) (systems w) → RemoveSystem name w = w) ∧
  systems (RemoveSystem name w) `sublist_of` systems w ∧
  entities (RemoveSystem name w) = entities w ∧
  components (RemoveSystem name w) = components w ∧
  nextEntityID (RemoveSystem name w) = nextEntityID w.
Proof.
  split; [|split; [|split; [|done]]].
  - intros l1 s l2 Hsys Hl1 Hs. simpl. rewrite Hsys.
    by apply removeFirstNamed_first.
  - intros Hnone. unfold RemoveSystem.
    rewrite removeFirstNamed_absent by done. by destruct w.
  - apply removeFirstNamed_sublist.
Qed.

(** C10. Two worlds that differ at most in the [Active] flags of their
    entities give the same results for [GetComponent],
    [GetEntitiesWithComponent] (over the same visiting order, which is an
    order of the one world exactly when it is one of the other) and
    [GetEntityCount], and [AddComponent], [RemoveComponent] and
    [DestroyEntity] take them to worlds that again differ at most in
    [Active] flags; an entity whose flag is false is still found by
    [GetComponent] and listed by [GetEntitiesWithComponent]. *)
Theorem Active_is_never_read w1 w2 :
  same_but_Active w1 w2 →
  (∀ i ty, GetComponent i ty w1 = GetComponent i ty w2) ∧
  (∀ order ty,
     (entity_order w1 order ↔ entity_order w2 order) ∧
     GetEntitiesWithComponent order ty w1 = GetEntitiesWithComponent order ty w2) ∧
  GetEntityCount w1 = GetEntityCount w2 ∧
  (∀ i c, same_but_Active (AddComponent i c w1) (AddComponent i c w2)) ∧
  (∀ i ty, same_but_Active (RemoveComponent i ty w1) (RemoveComponent i ty w2)) ∧
  (∀ i, same_but_Active (DestroyEntity i w1) (DestroyEntity i w2)) ∧
  (∀ i e ty c order,
     entities w1 !! i = Some e → Active e = false →
     Components e !! ty = Some c → entity_order w1 order →
     GetComponent i ty w1 = Some c ∧ i ∈ GetEntitiesWithComponent order ty w1).
Proof.
  intros H. split; [|split; [|split; [|split; [|split; [|split]]]]].
  - intros i ty. by apply same_but_Active_GetComponent.
  - intros order ty. split; [by apply same_but_Active_order|].
    by apply same_but_Active_collect.
  - by apply same_but_Active_count.
  - intros i c. by apply same_but_Active_AddComponent.
  - intros i ty. by apply same_but_Active_RemoveComponent.
  - intros i. by apply same_but_Active_DestroyEntity.
  - intros i e ty c order He _ Hc [_ Hin]%entity_order_spec. split.
    + unfold GetComponent. by rewrite He.
    + apply elem_of_collectEntities. split; [apply Hin; by exists e|].
      exists e. split; [done | by exists c].
Qed.

End world.

(** ** The claims on concrete worlds *)

(** C2 on a world with one entity: two creations with a destruction of a
    missing ID in between return [1] and [2]. *)
Lemma CreateEntity_ids_increasing_witness :
  (nextEntityID demo_world + N.of_nat (creates demo_calls) ≤ uint64_modulus)%N ∧
  (run demo_calls demo_world).2 = [1; 2]%N ∧
  StronglySorted N.lt (run demo_calls demo_world).2 ∧
  NoDup (run demo_calls demo_world).2.
Proof.
  split; [by vm_compute|]. split; [reflexivity|].
  apply (CreateEntity_ids_increasing demo_calls demo_world).
  by vm_compute.
Defined.

(** The counter at its last value: the next two IDs are [2^64 - 1] and [0]. *)
Example CreateEntity_at_the_last_value :
  (run [OpCreateEntity; OpCreateEntity]
       (mkWorld ∅ ∅ [] (uint64_modulus - 1) : DemoWorld)).2
  = [18446744073709551615%N; 0%N].
Proof. reflexivity. Qed.

(** C2, the claim as stated fails: after [2^64] rounds of [CreateEntity]
    and [DestroyEntity] on a new world the counter is back at [0], and the
    next [CreateEntity] returns [0], the ID the first call returned; the
    returned IDs are neither strictly increasing nor pairwise different. *)
Lemma CreateEntity_ids_repeat_after_wrap :
  (run wrap_calls NewWorld).2 !! 0 = Some 0%N ∧
  last (run wrap_calls NewWorld).2 = Some 0%N ∧
  ¬ NoDup (run wrap_calls NewWorld).2 ∧
  ¬ StronglySorted N.lt (run wrap_calls NewWorld).2.
Proof.
  assert (0 < N.to_nat uint64_modulus) as Hpos.
  { unfold uint64_modulus. lia. }
  destruct (run_churn (C := BuiltinComponent) (S := DemoSystem)
              (N.to_nat uint64_modulus) 0 ∅ [] [OpCreateEntity])
    as [_ Hids]; [by vm_compute|].
  rewrite N2Nat.id, N.add_0_l, N.Div0.mod_same in Hids.
  change (run wrap_calls NewWorld).2
    with (run (churn (N.to_nat uint64_modulus) 0 ++ [OpCreateEntity])
              (mkWorld ∅ ∅ [] 0 : DemoWorld)).2.
  rewrite Hids. clear Hids.
  change ((run [OpCreateEntity] (mkWorld ∅ ∅ [] 0 : DemoWorld)).2) with [0%N].
  assert (0%N ∈ (λ r : nat, ((0 + N.of_nat r) mod uint64_modulus)%N)
                  <$> seq 0 (N.to_nat uint64_modulus)) as Hin.
  { apply list_elem_of_fmap. exists 0. split; [done|]. apply elem_of_seq. lia. }
  assert (¬ NoDup (((λ r : nat, ((0 + N.of_nat r) mod uint64_modulus)%N)
                      <$> seq 0 (N.to_nat uint64_modulus)) ++ [0%N])) as Hdup.
  { intros (_ & Hdisj & _)%NoDup_app. apply (Hdisj _ Hin). by left. }
  split; [|split; [|split]].
  - destruct (N.to_nat uint64_modulus) as [|k]; [lia | done].
  - by rewrite last_snoc.
  - done.
  - intros Hs. by apply Hdup, sorted_lt_NoDup.
Qed.

(** C3 on entity [0] of the demo world: three tag components are added,
    the last is returned. *)
Lemma GetComponent_returns_latest_witness :
  is_Some (entities demo_world !! 0%N) ∧
  GetType (NewTagComponent ["enemy"]) = "tag" ∧
  GetComponent 0 "tag"
    (foldl (λ w c, AddComponent 0 c w) demo_world
       ([NewTagComponent ["player"]; NewTagComponent ["player"; "game_object"]]
          ++ [NewTagComponent ["enemy"]]))
  = Some (NewTagComponent ["enemy"]).
Proof.
  assert (is_Some (entities demo_world !! 0%N)) as H0 by (by eexists).
  split; [done|]. split; [done|].
  by apply (GetComponent_returns_latest demo_world 0 "tag").
Defined.

(** C4 on a world with two entities, one of which holds a physics
    component that was added twice. *)
Lemma GetEntitiesWithComponent_exact_witness :
  entity_order demo_world2 [0; 1]%N ∧
  GetEntitiesWithComponent [0; 1]%N "physics" demo_world2 = [0%N] ∧
  (∀ i, i ∈ GetEntitiesWithComponent [0; 1]%N "physics" demo_world2 ↔
        ∃ e, entities demo_world2 !! i = Some e ∧
             is_Some (Components e !! "physics")).
Proof.
  assert (entity_order demo_world2 [0; 1]%N) as Ho.
  { unfold entity_order. vm_compute. apply Permutation_swap. }
  split; [done|]. split; [reflexivity|].
  apply (GetEntitiesWithComponent_exact demo_world2 [0; 1]%N "physics" Ho).
Defined.

(** C7 on a new world: entity [0] is created, tagged and destroyed; later
    calls, among them [AddComponent] for the ID [0], do not bring it back. *)
Lemma DestroyEntity_never_again_witness :
  (N.of_nat (creates tagged_calls + creates later_calls) ≤ uint64_modulus)%N ∧
  is_Some (entities (run tagged_calls (NewWorld : DemoWorld)).1 !! 0%N) ∧
  GetComponent 0 "tag" (run tagged_calls (NewWorld : DemoWorld)).1
    = Some (NewTagComponent ["player"]) ∧
  (∀ ty, GetComponent 0 ty (DestroyEntity 0 (run tagged_calls NewWorld).1) = None) ∧
  (∀ ty, GetComponent 0 ty
           (run later_calls (DestroyEntity 0 (run tagged_calls NewWorld).1)).1 = None) ∧
  (∀ order ty,
     0%N ∉ GetEntitiesWithComponent order ty
             (run later_calls (DestroyEntity 0 (run tagged_calls NewWorld).1)).1).
Proof.
  assert (N.of_nat (creates tagged_calls + creates later_calls) ≤ uint64_modulus)%N
    as Hle by (by vm_compute).
  assert (is_Some (entities (run tagged_calls (NewWorld : DemoWorld)).1 !! 0%N))
    as Hi by (by eexists).
  split; [done|]. split; [done|]. split; [reflexivity|].
  apply (DestroyEntity_never_again tagged_calls later_calls 0%N Hle Hi).
Defined.

(** C7, the claim as stated fails: entity [0] is created, tagged and
    destroyed; after [2^64 - 1] further rounds of [CreateEntity] and
    [DestroyEntity] the counter is back at [0], [CreateEntity] hands out
    the ID [0] again, and once that entity is tagged
    [GetEntitiesWithComponent] lists [0] and [GetComponent] finds its tag. *)
Lemma DestroyEntity_id_comes_back :
  is_Some (entities (run tagged_calls (NewWorld : DemoWorld)).1 !! 0%N) ∧
  entity_order
    (run rebirth_calls (DestroyEntity 0 (run tagged_calls NewWorld).1)).1 [0%N] ∧
  GetEntitiesWithComponent [0%N] "tag"
    (run rebirth_calls (DestroyEntity 0 (run tagged_calls NewWorld).1)).1 = [0%N] ∧
  GetComponent 0 "tag"
    (run rebirth_calls (DestroyEntity 0 (run tagged_calls NewWorld).1)).1
    = Some (NewTagComponent ["ghost"]).
Proof.
  assert (DestroyEntity 0 (run tagged_calls (NewWorld : DemoWorld)).1
          = mkWorld ∅ {["tag" := []]} [] 1) as Hw by (by vm_compute).
  destruct (run_churn (C := BuiltinComponent) (S := DemoSystem)
              (N.to_nat (uint64_modulus - 1)) 1 {["tag" := []]} []
              [OpCreateEntity; OpAddComponent 0%N (NewTagComponent ["ghost"])])
    as [Hfinal _]; [by vm_compute|].
  rewrite N2Nat.id in Hfinal.
  change ((1 + (uint64_modulus - 1)) mod uint64_modulus)%N with 0%N in Hfinal.
  rewrite Hw. unfold rebirth_calls. rewrite Hfinal. clear Hfinal Hw.
  split; [by eexists|]. split; [|split].
  - unfold entity_order. by vm_compute.
  - reflexivity.
  - reflexivity.
Qed.

(** C8 on four systems, two of them named [RotationSystem]: the first of
    the two is removed; a name that no system reports removes nothing. *)
Lemma RemoveSystem_removes_first_witness :
  systems (RemoveSystem "RotationSystem" four_systems)
    = [NamedSystem "physics"; NamedSystem "render"; RotationSystem 5] ∧
  RemoveSystem "audio" four_systems = four_systems.
Proof.
  destruct (RemoveSystem_removes_first four_systems "RotationSystem") as (Hfirst & _).
  destruct (RemoveSystem_removes_first four_systems "audio") as (_ & Hnone & _).
  split.
  - apply (Hfirst [NamedSystem "physics"] (RotationSystem 0)
             [NamedSystem "render"; RotationSystem 5]); [done | | done].
    by repeat constructor.
  - apply Hnone. by repeat constructor.
Defined.

(** C8, the claim as stated fails: with two systems that report the same
    name registered, [RemoveSystem] removes the first and keeps the
    second, where filtering by the name would leave none. *)
Lemma RemoveSystem_keeps_later_match :
  systems two_rotations = [RotationSystem 0; RotationSystem 5] ∧
  systems (RemoveSystem "RotationSystem" two_rotations) = [RotationSystem 5] ∧
  GetName (RotationSystem 5) = "RotationSystem" ∧
  filter (λ s, GetName s ≠ "RotationSystem") (systems two_rotations) = [].
Proof. by vm_compute. Qed.

(** C10 on the two-entity world and the same world with every flag
    cleared. *)
Lemma Active_is_never_read_witness :
  same_but_Active demo_world2 (set_all_inactive demo_world2) ∧
  (∀ i ty, GetComponent i ty demo_world2
           = GetComponent i ty (set_all_inactive demo_world2)) ∧
  GetComponent 0 "tag" (set_all_inactive demo_world2)
    = Some (NewTagComponent ["player"]) ∧
  GetEntitiesWithComponent [0; 1]%N "physics" (set_all_inactive demo_world2) = [0%N] ∧
  GetEntityCount (set_all_inactive demo_world2) = 2.
Proof.
  pose proof (same_but_Active_set_all_inactive demo_world2) as H.
  destruct (Active_is_never_read demo_world2 (set_all_inactive demo_world2) H)
    as (Hget & Hlist & Hcount & _).
  split; [done|]. split; [done|]. split; [|split].
  - by rewrite <- Hget.
  - destruct (Hlist [0; 1]%N "physics") as [_ <-]. reflexivity.
  - rewrite <- Hcount. reflexivity.
Defined.

End ECSFacts.

(** * Properties of the physics world *)

Module PhysicsFacts.
Import Physics.

Local Open Scope float_scope.

(** ** Binary64 arithmetic around zero *)

Section floats.
Implicit Types x y z : float.

Lemma is_zero_spec x : is_zero x = true ↔ ∃ s, Prim2SF x = S754_zero s.
Proof.
  unfold is_zero. rewrite FloatAxioms.eqb_spec.
  change (Prim2SF zero) with (S754_zero false).
  destruct (Prim2SF x) as [s| s | |s m e]; simpl.
  - split; [by eauto | done].
  - split; [by destruct s | by intros [? ?]].
  - split; [done | by intros [? ?]].
  - split; [by destruct s | by intros [? ?]].
Qed.

Lemma is_finite_spec x :
  is_finite x = true →
  (∃ s, Prim2SF x = S754_zero s) ∨ (∃ s m e, Prim2SF x = S754_finite s m e).
Proof.
  unfold is_finite, is_nan, is_infinity. rewrite !FloatAxioms.eqb_spec, FloatAxioms.abs_spec.
  change (Prim2SF infinity) with (S754_infinity false).
  destruct (Prim2SF x) as [s| s | |s m e]; simpl.
  - by eauto.
  - by destruct s.
  - done.
  - by eauto 6.
Qed.

Lemma is_zero_is_finite x : is_zero x = true → is_finite x = true.
Proof.
  intros [s Hs]%is_zero_spec.
  unfold is_finite, is_nan, is_infinity. rewrite !FloatAxioms.eqb_spec, FloatAxioms.abs_spec, Hs.
  change (Prim2SF infinity) with (S754_infinity false). done.
Qed.

Lemma is_zero_mul_r x z : is_finite x = true → is_zero z = true → is_zero (x * z) = true.
Proof.
  intros Hx [sz Hz]%is_zero_spec. apply is_zero_spec. rewrite FloatAxioms.mul_spec, Hz.
  destruct (is_finite_spec x Hx) as [[s ->] | (s & m & e & ->)]; simpl; by eauto.
Qed.

Lemma is_zero_mul_l x z : is_finite x = true → is_zero z = true → is_zero (z * x) = true.
Proof.
  intros Hx [sz Hz]%is_zero_spec. apply is_zero_spec. rewrite FloatAxioms.mul_spec, Hz.
  destruct (is_finite_spec x Hx) as [[s ->] | (s & m & e & ->)]; simpl; by eauto.
Qed.

Lemma is_zero_add x z : is_zero x = true → is_zero z = true → is_zero (x + z) = true.
Proof.
  intros [sx Hx]%is_zero_spec [sz Hz]%is_zero_spec.
  apply is_zero_spec. rewrite FloatAxioms.add_spec, Hx, Hz.
  destruct sx, sz; simpl; by eauto.
Qed.

(** Adding a zero keeps the value; at most the sign of a zero changes. *)
Lemma same_value_add_zero x z : is_zero z = true → same_value (x + z) x.
Proof.
  intros Hz. destruct (is_zero x) eqn:Hx.
  - right. split; [by apply is_zero_add | done].
  - left. apply Prim2SF_inj. rewrite FloatAxioms.add_spec.
    apply is_zero_spec in Hz as [sz Hz]. rewrite Hz.
    destruct (Prim2SF x) as [s| s | |s m e] eqn:HSF; simpl; try done.
    assert (is_zero x = true) by (apply is_zero_spec; by eauto). congruence.
Qed.

Lemma same_value_refl x : same_value x x.
Proof. by left. Qed.

Lemma same_value_trans x y z : same_value x y → same_value y z → same_value x z.
Proof.
  intros [-> | [Hx Hy]] [-> | [Hy' Hz]]; unfold same_value; by auto.
Qed.

Lemma ltb_zero_is_zero x : is_zero x = true → (0 <? x) = false.
Proof.
  intros [s Hs]%is_zero_spec. rewrite FloatAxioms.ltb_spec, Hs.
  change (Prim2SF 0) with (S754_zero false). done.
Qed.

End floats.

(** ** One body under the integrator *)

Lemma integrate_inactive g dt b : Active b = false → integrate g dt b = b.
Proof. intros H. unfold integrate. by rewrite H. Qed.

Lemma integrate_Active g dt b : Active (integrate g dt b) = Active b.
Proof. unfold integrate. by destruct (Active b) eqn:H. Qed.

Lemma same_vector_refl v : same_vector v v.
Proof. split; apply same_value_refl. Qed.

Lemma same_vector_trans u v w : same_vector u v → same_vector v w → same_vector u w.
Proof. intros [? ?] [? ?]. split; by eapply same_value_trans. Qed.

Lemma same_value_is_zero x y : same_value x y → is_zero y = true → is_zero x = true.
Proof. intros [-> | [? _]] ?; done. Qed.

Lemma same_vector_zero_vector u v : same_vector u v → zero_vector v → zero_vector u.
Proof. intros [? ?] [? ?]. split; by eapply same_value_is_zero. Qed.

(** Scaling by a finite [d] stays finite when the value changes by the
    sign of a zero at most. *)
Lemma is_finite_mul_same_value (x y d : float) :
  same_value x y → is_finite d = true →
  is_finite (y * d) = true → is_finite (x * d) = true.
Proof.
  intros [-> | [Hx _]] Hd Hy; [done|].
  by apply is_zero_is_finite, is_zero_mul_l.
Qed.

(** A massless body whose force scaled by [dt] is finite is still such a
    body after the integrator, with the same velocity, and with the same
    position when that velocity is zero. *)
Lemma integrate_massless g dt b :
  finite_vector g → is_finite dt = true → massless b → finite_impulse dt b →
  massless (integrate g dt b) ∧ finite_impulse dt (integrate g dt b) ∧
  same_vector (Velocity (integrate g dt b)) (Velocity b) ∧
  (zero_vector (Velocity b) →
   same_vector (Position (integrate g dt b)) (Position b)).
Proof.
  intros [Hgx Hgy] Hdt (Hm & Him) [Hfx Hfy]. simpl in Hfx, Hfy.
  unfold integrate. destruct (Active b).
  2:{ split; [done|]. split; [done|]. split; intros; apply same_vector_refl. }
  assert (is_finite ((X (Force b) + X g * Mass b) * dt) = true) as Hfx'.
  { apply (is_finite_mul_same_value _ (X (Force b))); [|done..].
    by apply same_value_add_zero, is_zero_mul_r. }
  assert (is_finite ((Y (Force b) + Y g * Mass b) * dt) = true) as Hfy'.
  { apply (is_finite_mul_same_value _ (Y (Force b))); [|done..].
    by apply same_value_add_zero, is_zero_mul_r. }
  assert (is_zero ((X (Force b) + X g * Mass b) * dt * InverseMass b) = true) as Hzx
    by by apply is_zero_mul_r.
  assert (is_zero ((Y (Force b) + Y g * Mass b) * dt * InverseMass b) = true) as Hzy
    by by apply is_zero_mul_r.
  split; [done|]. split.
  { split; simpl; by apply is_zero_is_finite, is_zero_mul_l. }
  split.
  - split; simpl; by apply same_value_add_zero.
  - intros [Hvx Hvy].
    split; simpl; apply same_value_add_zero, is_zero_mul_l; try done;
      by apply is_zero_add.
Qed.

(** ** The loops over the heap *)

Section heap.
Implicit Types (h : Heap) (w : World) (b : RigidBody).
Implicit Types (p q : N) (order ps : list N).

Lemma integrateBodies_cons id order dt w h :
  integrateBodies (id :: order) dt w h =
  integrateBodies order dt w
    (match bodies w !! id with
     | Some p => alter (integrate (gravity w) dt) p h
     | None => h
     end).
Proof. done. Qed.

(** A property of the body at [p] that the integrator keeps is kept by
    the first loop. *)
Lemma integrateBodies_invariant (P : RigidBody → Prop) order dt w h p b :
  (∀ b', P b' → P (integrate (gravity w) dt b')) →
  h !! p = Some b → P b →
  ∃ b', integrateBodies order dt w h !! p = Some b' ∧ P b'.
Proof.
  intros HP. revert h b. induction order as [|id order IH]; intros h b Hp Hb.
  - by exists b.
  - rewrite integrateBodies_cons. destruct (bodies w !! id) as [q|]; [|by eauto].
    destruct (decide (q = p)) as [->|Hne].
    + apply (IH _ (integrate (gravity w) dt b)); [|by apply HP].
      by rewrite lookup_alter_eq, Hp.
    + apply (IH _ b); [|done]. by rewrite lookup_alter_ne.
Qed.

Lemma integrateBodies_inactive order dt w h p b :
  h !! p = Some b → Active b = false →
  integrateBodies order dt w h !! p = Some b.
Proof.
  intros Hp Hb.
  destruct (integrateBodies_invariant (λ b', b' = b) order dt w h p b)
    as (b' & Hb' & ->); [|done..].
  intros b' ->. by apply integrate_inactive.
Qed.

Lemma resolveCollision_other body1 body2 h p :
  p ≠ body1 → p ≠ body2 → resolveCollision body1 body2 h !! p = h !! p.
Proof.
  intros H1 H2. unfold resolveCollision.
  destruct (h !! body1) as [b1|]; [|done].
  destruct (h !! body2) as [b2|]; [|done].
  destruct (0 <? collisionOverlap b1 b2); [|done].
  destruct (0 <? InverseMass b1), (0 <? InverseMass b2);
    by rewrite ?lookup_alter_ne by done.
Qed.

Lemma collide_other body1 body2 h p :
  p ≠ body1 → p ≠ body2 → collide body1 body2 h !! p = h !! p.
Proof.
  intros H1 H2. unfold collide.
  destruct (h !! body1) as [b1|]; [|done].
  destruct (h !! body2) as [b2|]; [|done].
  destruct (checkCollision b1 b2); [|done].
  by apply resolveCollision_other.
Qed.

Lemma collideWith_other body1 rest h p :
  p ≠ body1 → p ∉ rest → collideWith body1 rest h !! p = h !! p.
Proof.
  intros H1. revert h. induction rest as [|body2 rest IH]; intros h Hp; simpl; [done|].
  apply not_elem_of_cons in Hp as [H2 Hp].
  rewrite IH by done. by apply collide_other.
Qed.

Lemma collidePairs_other ps h p : p ∉ ps → collidePairs ps h !! p = h !! p.
Proof.
  revert h. induction ps as [|body1 ps IH]; intros h Hp; simpl; [done|].
  apply not_elem_of_cons in Hp as [H1 Hp].
  rewrite IH by done. by apply collideWith_other.
Qed.

(** A body whose inverse mass is not positive is never written by the
    collision pass. *)
Lemma resolveCollision_immovable body1 body2 h p b :
  h !! p = Some b → (0 <? InverseMass b) = false →
  resolveCollision body1 body2 h !! p = Some b.
Proof.
  intros Hp Him. unfold resolveCollision.
  destruct (h !! body1) as [b1|] eqn:H1; [|done].
  destruct (h !! body2) as [b2|] eqn:H2; [|done].
  destruct (0 <? collisionOverlap b1 b2); [|done].
  assert (p = body1 → (0 <? InverseMass b1) = false) as Hg1 by (intros ->; congruence).
  assert (p = body2 → (0 <? InverseMass b2) = false) as Hg2 by (intros ->; congruence).
  destruct (0 <? InverseMass b1) eqn:Hi1, (0 <? InverseMass b2) eqn:Hi2;
    try done.
  - rewrite !lookup_alter_ne; [done | |]; intros ->.
    + by specialize (Hg1 eq_refl).
    + by specialize (Hg2 eq_refl).
  - rewrite lookup_alter_ne; [done|]. intros ->. by specialize (Hg1 eq_refl).
  - rewrite lookup_alter_ne; [done|]. intros ->. by specialize (Hg2 eq_refl).
Qed.

Lemma collide_immovable body1 body2 h p b :
  h !! p = Some b → (0 <? InverseMass b) = false →
  collide body1 body2 h !! p = Some b.
Proof.
  intros Hp Him. unfold collide.
  destruct (h !! body1) as [b1|]; [|done].
  destruct (h !! body2) as [b2|]; [|done].
  destruct (checkCollision b1 b2); [|done].
  by apply resolveCollision_immovable.
Qed.

Lemma collideWith_immovable body1 rest h p b :
  h !! p = Some b → (0 <? InverseMass b) = false →
  collideWith body1 rest h !! p = Some b.
Proof.
  intros Hp Him. revert h Hp. induction rest as [|body2 rest IH]; intros h Hp; simpl; [done|].
  by apply IH, collide_immovable.
Qed.

Lemma collidePairs_immovable ps h p b :
  h !! p = Some b → (0 <? InverseMass b) = false →
  collidePairs ps h !! p = Some b.
Proof.
  intros Hp Him. revert h Hp. induction ps as [|body1 ps IH]; intros h Hp; simpl; [done|].
  by apply IH, collideWith_immovable.
Qed.

(** *** A body that is not active *)

Lemma integrateBodies_inactive_at order dt w h p :
  inactive_at p h → inactive_at p (integrateBodies order dt w h).
Proof.
  revert h. induction order as [|id order IH]; intros h Hp; [done|].
  rewrite integrateBodies_cons. apply IH.
  destruct (bodies w !! id) as [q|]; [|done].
  intros b' Hb'. destruct (decide (q = p)) as [->|Hne].
  - rewrite lookup_alter_eq in Hb'.
    destruct (h !! p) as [b|] eqn:Hb; [|done]. injection Hb' as <-.
    rewrite integrate_Active. by apply Hp.
  - rewrite lookup_alter_ne in Hb' by done. by apply Hp.
Qed.

Lemma activeBodies_not_in order w h p :
  inactive_at p h → p ∉ activeBodies order w h.
Proof.
  intros Hp (id & _ & Hid)%list_elem_of_omap.
  destruct (bodies w !! id) as [q|]; [|done].
  destruct (h !! q) as [b|] eqn:Hq; [|done].
  destruct (Active b) eqn:Hb; [|done].
  injection Hid as ->. specialize (Hp _ Hq). congruence.
Qed.

Lemma agree_off_alter (f : RigidBody → RigidBody) q h1 h2 p :
  agree_off p h1 h2 → agree_off p (alter f q h1) (alter f q h2).
Proof.
  intros H q' Hq'. destruct (decide (q = q')) as [->|Hne].
  - by rewrite !lookup_alter_eq, H.
  - rewrite !lookup_alter_ne by done. by apply H.
Qed.

Lemma integrateBodies_agree order dt w h1 h2 p :
  agree_off p h1 h2 →
  agree_off p (integrateBodies order dt w h1) (integrateBodies order dt w h2).
Proof.
  revert h1 h2. induction order as [|id order IH]; intros h1 h2 H; [done|].
  rewrite !integrateBodies_cons. apply IH.
  destruct (bodies w !! id) as [q|]; [|done]. by apply agree_off_alter.
Qed.

Lemma activeBodies_agree order w h1 h2 p :
  agree_off p h1 h2 → inactive_at p h1 → inactive_at p h2 →
  activeBodies order w h1 = activeBodies order w h2.
Proof.
  intros H Hp1 Hp2. unfold activeBodies.
  apply list_omap_ext, Forall2_same_length_lookup. split; [done|].
  intros k id id' Hk Hk'. rewrite Hk in Hk'. injection Hk' as <-.
  destruct (bodies w !! id) as [q|]; [|done].
  destruct (decide (q = p)) as [->|Hne].
  - destruct (h1 !! p) as [b1|] eqn:H1, (h2 !! p) as [b2|] eqn:H2;
      rewrite ?(Hp1 _ H1), ?(Hp2 _ H2); done.
  - by rewrite H.
Qed.

Lemma resolveCollision_agree body1 body2 h1 h2 p :
  body1 ≠ p → body2 ≠ p → agree_off p h1 h2 →
  agree_off p (resolveCollision body1 body2 h1) (resolveCollision body1 body2 h2).
Proof.
  intros N1 N2 H. unfold resolveCollision.
  rewrite <- (H body1), <- (H body2) by done.
  destruct (h1 !! body1) as [b1|]; [|done].
  destruct (h1 !! body2) as [b2|]; [|done].
  destruct (0 <? collisionOverlap b1 b2); [|done].
  destruct (0 <? InverseMass b1), (0 <? InverseMass b2);
    auto using agree_off_alter.
Qed.

Lemma collide_agree body1 body2 h1 h2 p :
  body1 ≠ p → body2 ≠ p → agree_off p h1 h2 →
  agree_off p (collide body1 body2 h1) (collide body1 body2 h2).
Proof.
  intros N1 N2 H. unfold collide.
  rewrite <- (H body1), <- (H body2) by done.
  destruct (h1 !! body1) as [b1|]; [|done].
  destruct (h1 !! body2) as [b2|]; [|done].
  destruct (checkCollision b1 b2); [|done].
  by apply resolveCollision_agree.
Qed.

Lemma collideWith_agree body1 rest h1 h2 p :
  body1 ≠ p → p ∉ rest → agree_off p h1 h2 →
  agree_off p (collideWith body1 rest h1) (collideWith body1 rest h2).
Proof.
  intros N1. revert h1 h2.
  induction rest as [|body2 rest IH]; intros h1 h2 Hp H; simpl; [done|].
  apply not_elem_of_cons in Hp as [N2 Hp].
  apply IH; [done|]. by apply collide_agree.
Qed.

Lemma collidePairs_agree ps h1 h2 p :
  p ∉ ps → agree_off p h1 h2 →
  agree_off p (collidePairs ps h1) (collidePairs ps h2).
Proof.
  revert h1 h2. induction ps as [|body1 ps IH]; intros h1 h2 Hp H; simpl; [done|].
  apply not_elem_of_cons in Hp as [N1 Hp].
  apply IH; [done|]. by apply collideWith_agree.
Qed.

End heap.

(** ** The claims about the physics world *)

Section claims.
Implicit Types (h : Heap) (w : World) (b : RigidBody).
Implicit Types (p q : N) (o order : list N).

(** C1 (as amended). A body of mass zero and inverse mass zero holds the
    same velocity after [Update(dt)], and the same position when that
    velocity is zero, for every finite [dt], every finite gravity vector
    and every accumulated force that stays finite when scaled by [dt],
    whatever it overlaps and in whatever order the bodies are visited;
    and the collision pass writes no body whose inverse mass is not
    positive. (The integrator moves a body of mass zero that has a
    velocity.) *)
Theorem massless_body_under_Update o1 o2 dt w h p b :
  h !! p = Some b →
  massless b → finite_impulse dt b →
  finite_vector (gravity w) → is_finite dt = true →
  (∃ b', Update o1 o2 dt w h !! p = Some b' ∧
         same_vector (Velocity b') (Velocity b) ∧
         (zero_vector (Velocity b) → same_vector (Position b') (Position b))) ∧
  (∀ o h0 b0, h0 !! p = Some b0 → (0 <? InverseMass b0) = false →
              checkCollisions o w h0 !! p = Some b0).
Proof.
  intros Hp Hm Hf Hg Hdt. split.
  - destruct (integrateBodies_invariant
                (λ b', massless b' ∧ finite_impulse dt b' ∧
                       same_vector (Velocity b') (Velocity b) ∧
                       (zero_vector (Velocity b) →
                        same_vector (Position b') (Position b)))
                o1 dt w h p b) as (b' & Hb' & Hm' & _ & Hvel & Hpos); [|done| |].
    + intros b' (Hmb & Hfb & Hv & Hx).
      destruct (integrate_massless (gravity w) dt b' Hg Hdt Hmb Hfb)
        as (Hm' & Hf' & Hv' & Hx').
      split; [done|]. split; [done|]. split; [by eapply same_vector_trans|].
      intros Hzero. eapply same_vector_trans; [|by apply Hx].
      apply Hx'. by eapply same_vector_zero_vector.
    + split; [done|]. split; [done|]. split; intros; apply same_vector_refl.
    + exists b'. split; [|done].
      unfold Update, checkCollisions.
      apply collidePairs_immovable; [done|].
      apply ltb_zero_is_zero. by destruct Hm' as (_ & ?).
  - intros o h0 b0 H0 Him. by apply collidePairs_immovable.
Qed.

(** C6. A body whose [Active] flag is false is the same after [Update(dt)]
    in every field; it is not in the slice of bodies the collision pass
    tests and resolves; and the other bodies end the tick the same
    whatever the state of the inactive body is. *)
Theorem inactive_body_is_frozen o1 o2 dt w h p b :
  h !! p = Some b → Active b = false →
  Update o1 o2 dt w h !! p = Some b ∧
  (p ∉ activeBodies o2 w (integrateBodies o1 dt w h)) ∧
  (∀ h', agree_off p h h' → inactive_at p h' →
         agree_off p (Update o1 o2 dt w h) (Update o1 o2 dt w h')).
Proof.
  intros Hp Hb.
  assert (inactive_at p h) as Hin by (intros b' ?; congruence).
  assert (inactive_at p (integrateBodies o1 dt w h)) as Hin'
    by by apply integrateBodies_inactive_at.
  assert (p ∉ activeBodies o2 w (integrateBodies o1 dt w h)) as Hnot
    by by apply activeBodies_not_in.
  split; [|split; [done|]].
  - unfold Update, checkCollisions. rewrite collidePairs_other by done.
    by apply integrateBodies_inactive.
  - intros h' Hagree Hin2. unfold Update, checkCollisions.
    assert (inactive_at p (integrateBodies o1 dt w h')) as Hin2'
      by by apply integrateBodies_inactive_at.
    assert (agree_off p (integrateBodies o1 dt w h) (integrateBodies o1 dt w h'))
      as Hagree' by by apply integrateBodies_agree.
    rewrite <- (activeBodies_agree o2 w _ _ p Hagree' Hin' Hin2').
    by apply collidePairs_agree.
Qed.

(** C9. A world made by [NewWorld] (gravity [(0, -9.81)]) that holds one
    body, made by [NewRigidBody] with mass [1] at the origin: after
    [Update(1/60)] the body's velocity is [(0, -9.81/60)] and its position
    is that velocity multiplied by [1/60]. *)
Theorem first_step_under_gravity (id : N) p (width height : float) o1 o2 h :
  h !! p = Some (NewRigidBody id {| X := 0; Y := 0 |} width height 1) →
  body_order (AddBody p h NewWorld) o1 →
  body_order (AddBody p h NewWorld) o2 →
  ∃ b', Update o1 o2 (1 / 60) (AddBody p h NewWorld) h !! p = Some b' ∧
        Velocity b' = {| X := 0; Y := -9.81 / 60 |} ∧
        Position b' = Mul (Velocity b') (1 / 60).
Proof.
  intros Hp. unfold body_order, AddBody. rewrite Hp. simpl.
  rewrite insert_empty, map_to_list_singleton. simpl.
  intros ->%Permutation_singleton_r ->%Permutation_singleton_r.
  unfold Update, checkCollisions, integrateBodies, activeBodies. simpl.
  rewrite lookup_singleton_eq, lookup_alter_eq, Hp. simpl.
  rewrite lookup_alter_eq, Hp. simpl.
  eexists. split; [reflexivity|]. split; reflexivity.
Qed.

(** C5, what the code computes. For two bodies whose centres are apart,
    the overlap used by [resolveCollision] is the sum of the widths over
    two minus the distance of the centres, along the normalized vector
    from the first centre to the second. For two bodies whose centres
    coincide the direction is [(1, 0)], and the overlap is the sum of the
    widths over two minus [1], the value [distance] was overwritten with,
    not minus the distance of the centres, which is [0]. *)
Theorem resolveCollision_overlap_by_distance b1 b2 :
  ((Length (Sub (Position b2) (Position b1)) =? 0) = false →
   collisionNormal b1 b2 =
     Div (Sub (Position b2) (Position b1))
       (Length (Sub (Position b2) (Position b1))) ∧
   collisionOverlap b1 b2 =
     (Width b1 + Width b2) / 2 - Length (Sub (Position b2) (Position b1))) ∧
  ((Length (Sub (Position b2) (Position b1)) =? 0) = true →
   collisionNormal b1 b2 = {| X := 1; Y := 0 |} ∧
   collisionOverlap b1 b2 = (Width b1 + Width b2) / 2 - 1).
Proof.
  unfold collisionOverlap, collisionNormal, collisionLocals.
  split; intros ->; by split.
Qed.

End claims.

(** ** The claims on concrete worlds *)

(** C1 on a wall of mass [0] at rest, with the force [(3, 4)] on it, that
    a ball of mass [1] overlaps: after [Update(1/60)] the wall is where it
    was, at rest, and the force is spent. *)
Lemma massless_body_under_Update_witness :
  two_body_heap pushed_wall ball !! 100%N = Some pushed_wall ∧
  massless pushed_wall ∧ finite_impulse (1 / 60) pushed_wall ∧
  zero_vector (Velocity pushed_wall) ∧
  checkCollision pushed_wall ball = true ∧
  Update [1; 2]%N [2; 1]%N (1 / 60) (two_body_world pushed_wall ball)
    (two_body_heap pushed_wall ball) !! 100%N = Some wall ∧
  (∃ b', Update [1; 2]%N [2; 1]%N (1 / 60) (two_body_world pushed_wall ball)
           (two_body_heap pushed_wall ball) !! 100%N = Some b' ∧
         same_vector (Velocity b') (Velocity pushed_wall) ∧
         same_vector (Position b') (Position pushed_wall)).
Proof.
  assert (two_body_heap pushed_wall ball !! 100%N = Some pushed_wall) as Hp
    by reflexivity.
  assert (massless pushed_wall) as Hm by (by split).
  assert (finite_impulse (1 / 60) pushed_wall) as Hf by (by split).
  assert (zero_vector (Velocity pushed_wall)) as Hz by (by split).
  split; [done|]. split; [done|]. split; [done|]. split; [done|].
  split; [reflexivity|]. split; [reflexivity|].
  destruct (massless_body_under_Update [1; 2]%N [2; 1]%N (1 / 60)
              (two_body_world pushed_wall ball) (two_body_heap pushed_wall ball)
              100%N pushed_wall Hp Hm Hf)
    as [(b' & Hb' & Hv & Hx) _]; [by split | reflexivity |].
  exists b'. split; [done|]. split; [done | by apply Hx].
Defined.

(** C1, the claim as stated fails: a body of mass [0] and inverse mass
    [0] that has the velocity [(1, 0)] is at [(1, 0)] after [Update(1)];
    the integrator adds velocity times [dt] to the position of every
    active body. *)
Lemma massless_body_with_velocity_moves :
  Mass moving_wall = 0 ∧ InverseMass moving_wall = 0 ∧
  Position moving_wall = {| X := 0; Y := 0 |} ∧
  Position <$> (Update [1%N] [1%N] 1 (one_body_world moving_wall)
                  (one_body_heap moving_wall) !! 100%N)
    = Some {| X := 1; Y := 0 |} ∧
  ¬ same_value 1 0.
Proof.
  split; [reflexivity|]. split; [reflexivity|]. split; [reflexivity|].
  split; [reflexivity|].
  intros [H | [H _]].
  - apply (f_equal is_zero) in H. by vm_compute in H.
  - by vm_compute in H.
Qed.

(** Why gravity has to be finite: under an infinite gravity the force on
    a body of mass zero is not a number, and so is its velocity. *)
Example massless_body_under_infinite_gravity :
  Velocity <$> (Update [1%N] [1%N] (1 / 60)
                  (SetGravity {| X := 0; Y := infinity |} (one_body_world wall))
                  (one_body_heap wall) !! 100%N)
    = Some {| X := 0; Y := nan |}.
Proof. reflexivity. Qed.

(** Why the force scaled by [dt] has to be finite: a force that overflows
    in the product gives an infinity, which the inverse mass [0] turns
    into no number, and so is the velocity. *)
Example massless_body_under_overflowing_force :
  Velocity <$> (Update [1%N] [1%N] 10
                  (SetGravity {| X := 0; Y := 0 |} (one_body_world overloaded_wall))
                  (one_body_heap overloaded_wall) !! 100%N)
    = Some {| X := nan; Y := 0 |}.
Proof. reflexivity. Qed.

(** Two unit bodies at the origin: the overlap that [resolveCollision]
    computes is [(1 + 1) / 2 - 1 = 0], where the sum of the widths over
    two minus the distance of the centres is [1]; the bodies pass the
    overlap test of [checkCollision], and [Update] leaves both where they
    are. *)
Lemma coincident_bodies_are_not_separated :
  (Length (Sub (Position twin2) (Position twin1)) =? 0) = true ∧
  collisionNormal twin1 twin2 = {| X := 1; Y := 0 |} ∧
  collisionOverlap twin1 twin2 = (Width twin1 + Width twin2) / 2 - 1 ∧
  (Width twin1 + Width twin2) / 2 - 1 = 0 ∧
  (Width twin1 + Width twin2) / 2 - Length (Sub (Position twin2) (Position twin1)) = 1 ∧
  checkCollision twin1 twin2 = true ∧
  Position <$> (Update [1; 2]%N [1; 2]%N 0 (two_body_world twin1 twin2)
                  (two_body_heap twin1 twin2) !! 100%N)
    = Some {| X := 0; Y := 0 |} ∧
  Position <$> (Update [1; 2]%N [1; 2]%N 0 (two_body_world twin1 twin2)
                  (two_body_heap twin1 twin2) !! 200%N)
    = Some {| X := 0; Y := 0 |}.
Proof.
  assert ((Length (Sub (Position twin2) (Position twin1)) =? 0) = true) as Hd
    by reflexivity.
  destruct (resolveCollision_overlap_by_distance twin1 twin2) as [_ Hsame].
  destruct (Hsame Hd) as [Hn Ho].
  split; [done|]. split; [done|]. split; [done|].
  repeat split; reflexivity.
Defined.

(** C6 on a switched-off body that an active ball overlaps: the body is
    the same after [Update(1/60)], and the ball is not pushed sideways: it
    ends the tick as it does when the heap holds no body at the address
    of the other. *)
Lemma inactive_body_is_frozen_witness :
  two_body_heap sleeper ball !! 100%N = Some sleeper ∧
  Active sleeper = false ∧
  checkCollision sleeper ball = true ∧
  Update [1; 2]%N [1; 2]%N (1 / 60) (two_body_world sleeper ball)
    (two_body_heap sleeper ball) !! 100%N = Some sleeper ∧
  X <$> (Position <$> (Update [1; 2]%N [1; 2]%N (1 / 60) (two_body_world sleeper ball)
                         (two_body_heap sleeper ball) !! 200%N))
    = Some (X (Position ball)) ∧
  (100%N ∉ activeBodies [1; 2]%N (two_body_world sleeper ball)
             (integrateBodies [1; 2]%N (1 / 60) (two_body_world sleeper ball)
                (two_body_heap sleeper ball))) ∧
  Update [1; 2]%N [1; 2]%N (1 / 60) (two_body_world sleeper ball)
    (two_body_heap sleeper ball) !! 200%N
  = Update [1; 2]%N [1; 2]%N (1 / 60) (two_body_world sleeper ball)
      (delete 100%N (two_body_heap sleeper ball)) !! 200%N.
Proof.
  assert (two_body_heap sleeper ball !! 100%N = Some sleeper) as Hp by reflexivity.
  assert (Active sleeper = false) as Hb by reflexivity.
  destruct (inactive_body_is_frozen [1; 2]%N [1; 2]%N (1 / 60)
              (two_body_world sleeper ball) (two_body_heap sleeper ball)
              100%N sleeper Hp Hb) as (Hsame & Hnot & Hothers).
  split; [done|]. split; [done|]. split; [reflexivity|]. split; [done|].
  split; [reflexivity|]. split; [done|].
  apply (Hothers (delete 100%N (two_body_heap sleeper ball))); [| |done].
  - intros q Hq. by rewrite lookup_delete_ne.
  - intros b Hq. by rewrite lookup_delete_eq in Hq.
Defined.

(** C9 on the world of the demo in cmd/main.go: one unit body of mass [1]
    at the origin. *)
Lemma first_step_under_gravity_witness :
  one_body_heap (NewRigidBody 1 {| X := 0; Y := 0 |} 1 1 1) !! 100%N
    = Some (NewRigidBody 1 {| X := 0; Y := 0 |} 1 1 1) ∧
  body_order
    (AddBody 100 (one_body_heap (NewRigidBody 1 {| X := 0; Y := 0 |} 1 1 1)) NewWorld)
    [1%N] ∧
  (∃ b', Update [1%N] [1%N] (1 / 60)
           (AddBody 100 (one_body_heap (NewRigidBody 1 {| X := 0; Y := 0 |} 1 1 1))
              NewWorld)
           (one_body_heap (NewRigidBody 1 {| X := 0; Y := 0 |} 1 1 1)) !! 100%N
         = Some b' ∧
         Velocity b' = {| X := 0; Y := -9.81 / 60 |} ∧
         Position b' = Mul (Velocity b') (1 / 60)).
Proof.
  assert (body_order
            (AddBody 100 (one_body_heap (NewRigidBody 1 {| X := 0; Y := 0 |} 1 1 1))
               NewWorld) [1%N]) as Ho by (by vm_compute).
  split; [reflexivity|]. split; [done|].
  by apply (first_step_under_gravity 1 100 1 1 [1%N] [1%N]).
Defined.

(** The velocity after the first step, as the shortest decimal that
    names the same binary64 value. *)
Example first_step_velocity_value : (-9.81 / 60 = -0.1635)%float.
Proof. reflexivity. Qed.

End PhysicsFacts.

(** * Further properties of the ECS world *)

Module ECSMore.
Import ECS ECSFacts.

Section world.
Context {C S : Type} `{!Component C, !System S}.

Local Abbreviation World := (World C S).
Local Abbreviation Op := (Op C S).

Implicit Types (w : World) (op : Op) (ops : list Op).
Implicit Types (i j : EntityID) (ty : string) (c : C) (order : list EntityID).

(** ** Components of one entity *)

Lemma removeComponentFromList_GetComponent i ty w j ty' :
  GetComponent j ty' (removeComponentFromList i ty w) = GetComponent j ty' w.
Proof. unfold GetComponent. by rewrite removeComponentFromList_entities. Qed.

(** X1. [RemoveComponent(i, ty)] leaves entity [i] without a component of
    type [ty], changes no other component of any entity, and neither the
    set of stored entities, the systems nor the counter. *)
Theorem RemoveComponent_removes_only_that i ty w :
  GetComponent i ty (RemoveComponent i ty w) = None ∧
  (∀ j ty', (j, ty') ≠ (i, ty) →
     GetComponent j ty' (RemoveComponent i ty w) = GetComponent j ty' w) ∧
  (∀ j, is_Some (entities (RemoveComponent i ty w) !! j) ↔ is_Some (entities w !! j)) ∧
  systems (RemoveComponent i ty w) = systems w ∧
  nextEntityID (RemoveComponent i ty w) = nextEntityID w.
Proof.
  unfold RemoveComponent.
  destruct (entities w !! i) as [e|] eqn:He.
  2:{ split; [by apply GetComponent_absent|]. by repeat split. }
  destruct (Components e !! ty) as [c|] eqn:Hc.
  2:{ split; [unfold GetComponent; by rewrite He|]. by repeat split. }
  split; [|split; [|split; [|split]]].
  - rewrite removeComponentFromList_GetComponent. unfold GetComponent. simpl.
    rewrite lookup_insert_eq. simpl. apply lookup_delete_eq.
  - intros j ty' Hne. rewrite removeComponentFromList_GetComponent.
    unfold GetComponent. simpl.
    destruct (decide (i = j)) as [<-|Hij].
    + rewrite lookup_insert_eq, He. simpl.
      apply lookup_delete_ne. congruence.
    + by rewrite lookup_insert_ne.
  - intros j. rewrite removeComponentFromList_entities. simpl.
    destruct (decide (i = j)) as [<-|Hij].
    + rewrite lookup_insert_eq, He. split; by eauto.
    + by rewrite lookup_insert_ne.
  - by rewrite removeComponentFromList_systems.
  - by rewrite removeComponentFromList_next.
Qed.

(** X2. [AddComponent] on an ID that is not stored changes nothing; on a
    stored entity it changes no component but the one of the added
    component's type on that entity, and stores or drops no entity. *)
Theorem AddComponent_changes_only_that i c w :
  (entities w !! i = None → AddComponent i c w = w) ∧
  (∀ j ty, (j, ty) ≠ (i, GetType c) →
     GetComponent j ty (AddComponent i c w) = GetComponent j ty w) ∧
  (∀ j, is_Some (entities (AddComponent i c w) !! j) ↔ is_Some (entities w !! j)) ∧
  GetEntityCount (AddComponent i c w) = GetEntityCount w.
Proof.
  unfold AddComponent, GetEntityCount.
  destruct (entities w !! i) as [e|] eqn:He; [|done].
  split; [done|]. split; [|split].
  - intros j ty Hne. unfold GetComponent. simpl.
    destruct (decide (i = j)) as [<-|Hij].
    + rewrite lookup_insert_eq, He. simpl.
      apply lookup_insert_ne. congruence.
    + by rewrite lookup_insert_ne.
  - intros j. simpl. destruct (decide (i = j)) as [<-|Hij].
    + rewrite lookup_insert_eq, He. split; by eauto.
    + by rewrite lookup_insert_ne.
  - simpl. apply map_size_insert_Some. by eauto.
Qed.

(** ** Creating and destroying entities *)

(** X3. [DestroyEntity] of an ID that is not stored changes nothing; of a
    stored entity it lowers the entity count by one, and it never changes
    a component of another entity, the systems or the counter. *)
Theorem DestroyEntity_removes_only_that i w :
  (entities w !! i = None → DestroyEntity i w = w) ∧
  (is_Some (entities w !! i) →
     Datatypes.S (GetEntityCount (DestroyEntity i w)) = GetEntityCount w) ∧
  (∀ j ty, j ≠ i →
     GetComponent j ty (DestroyEntity i w) = GetComponent j ty w) ∧
  systems (DestroyEntity i w) = systems w ∧
  nextEntityID (DestroyEntity i w) = nextEntityID w.
Proof.
  split; [|split; [|split; [|split]]].
  - intros Hi. unfold DestroyEntity. by rewrite Hi.
  - intros Hi. unfold GetEntityCount. rewrite DestroyEntity_entities.
    rewrite map_size_delete_Some by done.
    destruct Hi as [e He].
    assert (size (entities w) ≠ 0); [|lia].
    apply map_size_ne_0_lookup. by eauto.
  - intros j ty Hne. unfold GetComponent. rewrite DestroyEntity_entities.
    by rewrite lookup_delete_ne.
  - unfold DestroyEntity. destruct (entities w !! i); [|done]. simpl.
    by rewrite removeAllFromList_systems.
  - apply DestroyEntity_next.
Qed.

(** X4. In the lifetime of a world that has created fewer than [2^64]
    entities, [CreateEntity] returns an ID that is not in use, raises the
    entity count by one, stores the new entity without components, and
    leaves the components of the other entities as they are. *)
Theorem CreateEntity_is_fresh ops :
  (N.of_nat (creates ops) < uint64_modulus)%N →
  entities (run ops (NewWorld : World)).1
    !! (CreateEntity (run ops (NewWorld : World)).1).1 = None ∧
  GetEntityCount (CreateEntity (run ops (NewWorld : World)).1).2
    = Datatypes.S (GetEntityCount (run ops (NewWorld : World)).1) ∧
  (∀ ty, GetComponent (CreateEntity (run ops (NewWorld : World)).1).1 ty
           (CreateEntity (run ops (NewWorld : World)).1).2 = None) ∧
  (∀ j ty, j ≠ (CreateEntity (run ops (NewWorld : World)).1).1 →
     GetComponent j ty (CreateEntity (run ops (NewWorld : World)).1).2
     = GetComponent j ty (run ops (NewWorld : World)).1).
Proof.
  intros Hlt.
  destruct (run_tracks ops (NewWorld : World) 0 tracks_NewWorld)
    as (_ & Hnext & Hkeys); [lia|].
  rewrite N.add_0_l in Hnext, Hkeys. rewrite N.mod_small in Hnext by done.
  set (w := (run ops (NewWorld : World)).1) in *.
  assert (entities w !! nextEntityID w = None) as Hfresh.
  { apply eq_None_not_Some. intros Hs%Hkeys. lia. }
  split; [done|]. split; [|split].
  - unfold GetEntityCount. simpl. by apply map_size_insert_None.
  - intros ty. unfold GetComponent. simpl. rewrite lookup_insert_eq. simpl.
    apply lookup_empty.
  - intros j ty Hne. unfold GetComponent. simpl. simpl in Hne.
    by rewrite lookup_insert_ne.
Qed.

(** ** Invariants of the worlds reached from [NewWorld] *)

Lemma AddComponent_lookup i c w j :
  entities (AddComponent i c w) !! j =
  if decide (j = i)
  then (λ e, mkEntity (ID e) (<[GetType c := c]> (Components e)) (Active e))
         <$> entities w !! i
  else entities w !! j.
Proof.
  unfold AddComponent. destruct (entities w !! i) as [e|] eqn:He; simpl.
  - case_decide as Hj; [subst; by rewrite lookup_insert_eq|].
    by rewrite lookup_insert_ne.
  - case_decide; by subst.
Qed.

Lemma RemoveComponent_lookup i ty w j :
  entities (RemoveComponent i ty w) !! j =
  if decide (j = i)
  then (λ e, mkEntity (ID e) (delete ty (Components e)) (Active e))
         <$> entities w !! i
  else entities w !! j.
Proof.
  unfold RemoveComponent. destruct (entities w !! i) as [e|] eqn:He; simpl.
  - destruct (Components e !! ty) as [c|] eqn:Hc.
    + rewrite removeComponentFromList_entities. simpl.
      case_decide as Hj; [subst; by rewrite lookup_insert_eq|].
      by rewrite lookup_insert_ne.
    + case_decide as Hj; [|done]. subst. rewrite He. simpl.
      rewrite delete_id by done. by destruct e.
  - case_decide; by subst.
Qed.

Lemma removeComponentFromList_components_other i ty w ty' :
  ty' ≠ ty →
  components (removeComponentFromList i ty w) !! ty' = components w !! ty'.
Proof.
  intros Hne. unfold removeComponentFromList.
  destruct (components w !! ty) as [l|]; [|done].
  destruct (remove_first_non_nil l); [|done]. simpl.
  by rewrite lookup_insert_ne.
Qed.

Lemma remove_first_non_nil_sublist (l l' : list (option C)) :
  remove_first_non_nil l = Some l' → l' `sublist_of` l.
Proof.
  revert l'. induction l as [|[c|] l IH]; intros l' Hl; simpl in Hl.
  - done.
  - injection Hl as <-. by constructor.
  - destruct (remove_first_non_nil l) as [l2|]; [|done].
    injection Hl as <-. constructor. by apply IH.
Qed.

(** The list of a type after [removeComponentFromList] is a sublist of
    the list before. *)
Lemma removeComponentFromList_sublist i ty w ty' l' :
  components (removeComponentFromList i ty w) !! ty' = Some l' →
  ∃ l, components w !! ty' = Some l ∧ l' `sublist_of` l.
Proof.
  destruct (decide (ty' = ty)) as [->|Hne].
  2:{ rewrite removeComponentFromList_components_other by done. by eauto. }
  unfold removeComponentFromList.
  destruct (components w !! ty) as [l|] eqn:Hl; [|by rewrite Hl].
  destruct (remove_first_non_nil l) as [l2|] eqn:Hr; simpl.
  - rewrite lookup_insert_eq. intros [= <-]. exists l. split; [done|].
    by apply remove_first_non_nil_sublist.
  - rewrite Hl. intros [= <-]. by eauto.
Qed.

Lemma removeAllFromList_sublist i tys w ty' l' :
  components (removeAllFromList i tys w) !! ty' = Some l' →
  ∃ l, components w !! ty' = Some l ∧ l' `sublist_of` l.
Proof.
  unfold removeAllFromList. revert w.
  induction tys as [|ty tys IH]; intros w Hl'; simpl in *; [by eauto|].
  destruct (IH _ Hl') as (l1 & Hl1 & Hsub1).
  destruct (removeComponentFromList_sublist _ _ _ _ _ Hl1) as (l & Hl & Hsub).
  exists l. split; [done|]. by etrans.
Qed.

Lemma DestroyEntity_components_sublist i w ty' l' :
  components (DestroyEntity i w) !! ty' = Some l' →
  ∃ l, components w !! ty' = Some l ∧ l' `sublist_of` l.
Proof.
  unfold DestroyEntity. destruct (entities w !! i) as [e|]; [|by eauto].
  simpl. apply removeAllFromList_sublist.
Qed.

Lemma RemoveComponent_components_sublist i ty w ty' l' :
  components (RemoveComponent i ty w) !! ty' = Some l' →
  ∃ l, components w !! ty' = Some l ∧ l' `sublist_of` l.
Proof.
  unfold RemoveComponent. destruct (entities w !! i) as [e|]; [|by eauto].
  destruct (Components e !! ty); [|by eauto].
  intros Hl'. by apply removeComponentFromList_sublist in Hl'.
Qed.

(** The list of a type after [AddComponent]: the list before, with the
    component appended when it is of that type and the entity is stored. *)
Lemma AddComponent_components i c w ty' l' :
  components (AddComponent i c w) !! ty' = Some l' →
  components w !! ty' = Some l' ∨
  (ty' = GetType c ∧ l' = default [] (components w !! ty') ++ [Some c]).
Proof.
  unfold AddComponent. destruct (entities w !! i) as [e|]; [|by auto]. simpl.
  destruct (decide (ty' = GetType c)) as [->|Hne].
  - rewrite lookup_insert_eq. intros [= <-]. by right.
  - rewrite lookup_insert_ne by done. by auto.
Qed.

Lemma step_entities_ok op w : entities_ok w → entities_ok (step op w).1.
Proof.
  intros Hok. destruct op as [|i|i c|i ty|s|n]; intros j e; simpl.
  - destruct (decide (j = nextEntityID w)) as [->|Hne].
    + rewrite lookup_insert_eq. by intros [= <-].
    + rewrite lookup_insert_ne by done. apply Hok.
  - rewrite DestroyEntity_entities. intros [_ ?]%lookup_delete_Some. by apply Hok.
  - rewrite AddComponent_lookup. case_decide as Hj; [|apply Hok]. subst.
    destruct (entities w !! i) as [e0|] eqn:He0; [|done]. intros [= <-]. simpl.
    by apply Hok.
  - rewrite RemoveComponent_lookup. case_decide as Hj; [|apply Hok]. subst.
    destruct (entities w !! i) as [e0|] eqn:He0; [|done]. intros [= <-]. simpl.
    by apply Hok.
  - apply Hok.
  - apply Hok.
Qed.

Lemma step_tags_ok op w : tags_ok w → tags_ok (step op w).1.
Proof.
  intros [Hent Hlist]. destruct op as [|i|i c|i ty|s|n]; simpl.
  - split; [|done]. intros j e ty c. simpl.
    destruct (decide (j = nextEntityID w)) as [->|Hne].
    + rewrite lookup_insert_eq. intros [= <-]. simpl. by rewrite lookup_empty.
    + rewrite lookup_insert_ne by done. apply Hent.
  - split.
    + intros j e ty c. rewrite DestroyEntity_entities.
      intros [_ ?]%lookup_delete_Some. by eapply Hent.
    + intros ty l' c (l & Hl & Hsub)%DestroyEntity_components_sublist Hin.
      eapply Hlist; [done|]. by eapply elem_of_sublist.
  - split.
    + intros j e ty c'. rewrite AddComponent_lookup.
      case_decide as Hj; [|apply Hent]. subst.
      destruct (entities w !! i) as [e0|] eqn:He0; [|done]. intros [= <-]. simpl.
      destruct (decide (ty = GetType c)) as [->|Hne].
      * rewrite lookup_insert_eq. by intros [= <-].
      * rewrite lookup_insert_ne by done. by eapply Hent.
    + intros ty l' c' [Hl | [-> ->]]%AddComponent_components Hin.
      * by eapply Hlist.
      * apply elem_of_app in Hin as [Hin | Hin%list_elem_of_singleton].
        -- destruct (components w !! GetType c) as [l|] eqn:Hl; simpl in Hin.
           ++ by eapply Hlist.
           ++ by apply elem_of_nil in Hin.
        -- by injection Hin as ->.
  - split.
    + intros j e ty' c. rewrite RemoveComponent_lookup.
      case_decide as Hj; [|apply Hent]. subst.
      destruct (entities w !! i) as [e0|] eqn:He0; [|done]. intros [= <-]. simpl.
      intros [_ ?]%lookup_delete_Some. by eapply Hent.
    + intros ty' l' c (l & Hl & Hsub)%RemoveComponent_components_sublist Hin.
      eapply Hlist; [done|]. by eapply elem_of_sublist.
  - done.
  - done.
Qed.

Lemma run_invariant (P : World → Prop) ops w :
  (∀ op w', P w' → P (step op w').1) → P w → P (run ops w).1.
Proof.
  intros Hstep. revert w. induction ops as [|op ops IH]; intros w Hw; [done|].
  rewrite run_world_cons. by apply IH, Hstep.
Qed.

(** X5. In every world reached from [NewWorld] by calls of the package,
    an entity stored under an ID has that ID in its [ID] field and is
    active: no call stores an entity under another key or clears a flag. *)
Theorem stored_entities_keep_ID_and_Active ops i e :
  entities (run ops (NewWorld : World)).1 !! i = Some e →
  ID e = i ∧ Active e = true.
Proof.
  revert i e. change (entities_ok (run ops (NewWorld : World)).1).
  apply run_invariant; [apply step_entities_ok|].
  intros i e He. simpl in He. by rewrite lookup_empty in He.
Qed.

(** X6. In every world reached from [NewWorld], a component that
    [GetComponent(i, ty)] returns reports the type [ty], and so does every
    entry of the global list of [ty]. *)
Theorem GetComponent_returns_the_type ops i ty c :
  GetComponent i ty (run ops (NewWorld : World)).1 = Some c →
  GetType c = ty ∧
  (∀ l c', components (run ops (NewWorld : World)).1 !! ty = Some l →
           Some c' ∈ l → GetType c' = ty).
Proof.
  assert (tags_ok (run ops (NewWorld : World)).1) as [Hent Hlist].
  { apply run_invariant; [apply step_tags_ok|]. split.
    - intros j e ty' c' He. simpl in He. by rewrite lookup_empty in He.
    - intros ty' l c' Hl. simpl in Hl. by rewrite lookup_empty in Hl. }
  unfold GetComponent.
  destruct (entities (run ops (NewWorld : World)).1 !! i) as [e|] eqn:He; [|done].
  intros Hc. split; [by eapply Hent|]. intros l c' Hl Hin. by eapply Hlist.
Qed.

(** ** The global per-type lists against the entities' maps *)

Section filter_size.
Context (P : N * Entity C → Prop) `{!∀ x, Decision (P x)}.
Implicit Types (m : gmap N (Entity C)) (x y : Entity C).

Lemma filter_size_delete_le m i : size (filter P (delete i m)) ≤ size (filter P m).
Proof.
  rewrite map_filter_delete, map_size_delete.
  destruct (filter P m !! i); simpl; lia.
Qed.

Lemma filter_size_delete_held m i y :
  m !! i = Some y → P (i, y) →
  Datatypes.S (size (filter P (delete i m))) = size (filter P m).
Proof.
  intros Hi Hy.
  assert (filter P m !! i = Some y) as Hf by by apply map_lookup_filter_Some.
  rewrite map_filter_delete, map_size_delete, Hf. simpl.
  assert (size (filter P m) ≠ 0); [|lia].
  apply map_size_ne_0_lookup. by eauto.
Qed.

Lemma filter_size_insert_le m i x :
  size (filter P (<[i:=x]> m)) ≤ Datatypes.S (size (filter P m)).
Proof.
  rewrite map_filter_insert. case_decide.
  - rewrite map_size_insert. destruct (filter P m !! i); simpl; lia.
  - pose proof (filter_size_delete_le m i). lia.
Qed.

Lemma filter_size_insert_not m i x :
  ¬ P (i, x) → size (filter P (<[i:=x]> m)) ≤ size (filter P m).
Proof.
  intros Hx. rewrite map_filter_insert_False by done. apply filter_size_delete_le.
Qed.

Lemma filter_size_insert_same m i x y :
  m !! i = Some y → (P (i, x) → P (i, y)) →
  size (filter P (<[i:=x]> m)) ≤ size (filter P m).
Proof.
  intros Hi Hxy. destruct (decide (P (i, x))) as [Hx|Hx].
  - rewrite map_filter_insert_True by done.
    rewrite map_size_insert_Some; [done|].
    exists y. apply map_lookup_filter_Some. by auto.
  - by apply filter_size_insert_not.
Qed.

Lemma filter_size_insert_dropped m i x y :
  m !! i = Some y → P (i, y) → ¬ P (i, x) →
  Datatypes.S (size (filter P (<[i:=x]> m))) = size (filter P m).
Proof.
  intros Hi Hy Hx. rewrite map_filter_insert_False by done.
  by eapply filter_size_delete_held.
Qed.

End filter_size.

Lemma removeComponentFromList_no_nil i ty w :
  no_nil w → no_nil (removeComponentFromList i ty w).
Proof.
  intros Hw ty' l' (l & Hl & Hsub)%removeComponentFromList_sublist Hin.
  eapply Hw; [done|]. by eapply elem_of_sublist.
Qed.

Lemma removeAllFromList_no_nil i tys w :
  no_nil w → no_nil (removeAllFromList i tys w).
Proof.
  intros Hw ty' l' (l & Hl & Hsub)%removeAllFromList_sublist Hin.
  eapply Hw; [done|]. by eapply elem_of_sublist.
Qed.

(** Without nil entries, [removeComponentFromList] cuts the head of the
    list of its type. *)
Lemma removeComponentFromList_head i ty w l :
  no_nil w → components w !! ty = Some l →
  components (removeComponentFromList i ty w) !! ty = Some (tail l).
Proof.
  intros Hw Hl. unfold removeComponentFromList. rewrite Hl.
  destruct l as [|[c|] l]; simpl.
  - done.
  - by rewrite lookup_insert_eq.
  - exfalso. eapply Hw; [done|]. by left.
Qed.

Lemma listed_removeComponentFromList i ty w ty' :
  no_nil w →
  listed ty' (removeComponentFromList i ty w) =
  listed ty' w - (if decide (ty' = ty) then 1 else 0).
Proof.
  intros Hw. unfold listed. case_decide as Hty.
  - subst. destruct (components w !! ty) as [l|] eqn:Hl.
    + rewrite (removeComponentFromList_head _ _ _ l) by done. simpl.
      destruct l; simpl; lia.
    + unfold removeComponentFromList. by rewrite Hl, Hl.
  - rewrite removeComponentFromList_components_other by done. lia.
Qed.

Lemma listed_removeAllFromList i tys w ty' :
  no_nil w → NoDup tys →
  listed ty' (removeAllFromList i tys w) =
  listed ty' w - (if decide (ty' ∈ tys) then 1 else 0).
Proof.
  unfold removeAllFromList. intros Hw Hnd. revert w Hw.
  induction Hnd as [|ty tys Hty Hnd IH]; intros w Hw; simpl.
  - lia.
  - rewrite IH by by apply removeComponentFromList_no_nil.
    rewrite listed_removeComponentFromList by done.
    destruct (decide (ty' = ty)) as [->|Hne].
    + rewrite (decide_True (P := ty ∈ ty :: tys)) by by left.
      rewrite (decide_False (P := ty ∈ tys)) by done. lia.
    + destruct (decide (ty' ∈ tys)) as [Hin|Hin].
      * rewrite (decide_True (P := ty' ∈ ty :: tys)) by by right. lia.
      * rewrite (decide_False (P := ty' ∈ ty :: tys)); [lia|].
        by intros [?|?]%elem_of_cons.
Qed.

Lemma step_no_nil op w : no_nil w → no_nil (step op w).1.
Proof.
  intros Hw. destruct op as [|i|i c|i ty|s|n]; simpl; try done.
  - intros ty l' (l & Hl & Hsub)%DestroyEntity_components_sublist Hin.
    eapply Hw; [done|]. by eapply elem_of_sublist.
  - intros ty l' [Hl | [-> ->]]%AddComponent_components Hin.
    + by eapply Hw.
    + apply elem_of_app in Hin as [Hin | Hin%list_elem_of_singleton]; [|done].
      destruct (components w !! GetType c) as [l|] eqn:Hl; simpl in Hin.
      * by eapply Hw.
      * by apply elem_of_nil in Hin.
  - intros ty' l' (l & Hl & Hsub)%RemoveComponent_components_sublist Hin.
    eapply Hw; [done|]. by eapply elem_of_sublist.
Qed.

Lemma step_covers op w :
  no_nil w → (∀ ty, holders ty w ≤ listed ty w) →
  ∀ ty, holders ty (step op w).1 ≤ listed ty (step op w).1.
Proof.
  intros Hnil Hw ty. specialize (Hw ty).
  destruct op as [|i|i c|i ty0|s|n]; simpl; try done.
  - etrans; [|exact Hw]. unfold holders. simpl.
    apply filter_size_insert_not. simpl. rewrite lookup_empty. by intros [? ?].
  - unfold DestroyEntity. destruct (entities w !! i) as [e|] eqn:He; [|done].
    unfold holders, listed in *. simpl.
    rewrite removeAllFromList_entities.
    pose proof (listed_removeAllFromList i (map_to_list (Components e)).*1 w ty Hnil
                  (NoDup_fst_map_to_list _)) as Hlisted.
    unfold listed in Hlisted. rewrite Hlisted. clear Hlisted.
    destruct (Components e !! ty) as [c|] eqn:Hc.
    + rewrite decide_True.
      2:{ apply list_elem_of_fmap. exists (ty, c). split; [done|].
          by apply elem_of_map_to_list. }
      pose proof (filter_size_delete_held
                    (λ kv : N * Entity C, is_Some (Components kv.2 !! ty))
                    (entities w) i e He) as Hs.
      simpl in Hs. rewrite Hc in Hs. specialize (Hs (ltac:(by eexists))). lia.
    + rewrite decide_False.
      2:{ intros ([ty' c] & -> & Hin%elem_of_map_to_list)%list_elem_of_fmap.
          simpl in Hc. congruence. }
      pose proof (filter_size_delete_le
                    (λ kv : N * Entity C, is_Some (Components kv.2 !! ty))
                    (entities w) i). lia.
  - unfold AddComponent. destruct (entities w !! i) as [e|] eqn:He; [|done].
    unfold holders, listed in *. simpl.
    destruct (decide (ty = GetType c)) as [->|Hne].
    + rewrite lookup_insert_eq. simpl. rewrite length_app. simpl.
      pose proof (filter_size_insert_le
                    (λ kv : N * Entity C, is_Some (Components kv.2 !! GetType c))
                    (entities w) i
                    (mkEntity (ID e) (<[GetType c := c]> (Components e)) (Active e))).
      lia.
    + rewrite lookup_insert_ne by done.
      etrans; [|exact Hw].
      apply (filter_size_insert_same _ _ _ _ e); [done|]. simpl.
      by rewrite lookup_insert_ne.
  - unfold RemoveComponent. destruct (entities w !! i) as [e|] eqn:He; [|done].
    destruct (Components e !! ty0) as [c0|] eqn:Hc0; [|done].
    pose proof (listed_removeComponentFromList i ty0
                  (mkWorld (<[i := mkEntity (ID e) (delete ty0 (Components e)) (Active e)]>
                              (entities w))
                     (components w) (systems w) (nextEntityID w)) ty Hnil) as Hlisted.
    rewrite Hlisted. clear Hlisted.
    unfold holders, listed in *. rewrite removeComponentFromList_entities. simpl.
    destruct (decide (ty = ty0)) as [->|Hne].
    + pose proof (filter_size_insert_dropped
                    (λ kv : N * Entity C, is_Some (Components kv.2 !! ty0))
                    (entities w) i
                    (mkEntity (ID e) (delete ty0 (Components e)) (Active e)) e He) as Hs.
      simpl in Hs. rewrite Hc0, lookup_delete_eq in Hs.
      specialize (Hs (ltac:(by eexists)) (ltac:(by intros [? ?]))). lia.
    + rewrite Nat.sub_0_r. etrans; [|exact Hw].
      apply (filter_size_insert_same _ _ _ _ e); [done|]. simpl.
      by rewrite lookup_delete_ne.
Qed.

Lemma reached_no_nil ops : no_nil (run ops (NewWorld : World)).1.
Proof.
  apply run_invariant; [apply step_no_nil|].
  intros ty l Hl. simpl in Hl. by rewrite lookup_empty in Hl.
Qed.

Lemma reached_covers ops ty :
  holders ty (run ops (NewWorld : World)).1 ≤ listed ty (run ops (NewWorld : World)).1.
Proof.
  revert ty.
  apply (run_invariant (λ w, no_nil w ∧ ∀ ty, holders ty w ≤ listed ty w) ops NewWorld).
  - intros op w [Hnil Hw]. split; [by apply step_no_nil | by apply step_covers].
  - split.
    + intros ty l Hl. simpl in Hl. by rewrite lookup_empty in Hl.
    + intros ty. unfold holders. simpl. by rewrite map_filter_empty, map_size_empty.
Qed.

(** X7. In every world reached from [NewWorld], the global list of a
    component type has at least as many entries as there are entities
    that hold a component of the type, and none of its entries is nil. *)
Theorem global_list_covers_holders ops ty :
  holders ty (run ops (NewWorld : World)).1 ≤ listed ty (run ops (NewWorld : World)).1 ∧
  (∀ l, components (run ops (NewWorld : World)).1 !! ty = Some l → None ∉ l).
Proof.
  split; [apply reached_covers|]. intros l Hl. by eapply reached_no_nil.
Qed.

(** X8. In every world reached from [NewWorld], [RemoveComponent(i, ty)]
    on an entity that holds the type cuts the first entry of the global
    list of [ty], the oldest one, whichever entity it was added to. *)
Theorem RemoveComponent_cuts_oldest_entry ops i ty c :
  GetComponent i ty (run ops (NewWorld : World)).1 = Some c →
  ∃ c0 l,
    components (run ops (NewWorld : World)).1 !! ty = Some (Some c0 :: l) ∧
    components (RemoveComponent i ty (run ops (NewWorld : World)).1) !! ty = Some l.
Proof.
  pose proof (reached_no_nil ops) as Hnil.
  pose proof (reached_covers ops ty) as Hcov.
  set (w := (run ops (NewWorld : World)).1) in *.
  unfold GetComponent. destruct (entities w !! i) as [e|] eqn:He; [|done].
  intros Hc.
  assert (holders ty w ≠ 0) as Hpos.
  { unfold holders. apply map_size_ne_0_lookup. exists i, e.
    apply map_lookup_filter_Some. split; [done|]. simpl. by eexists. }
  unfold listed in Hcov.
  destruct (components w !! ty) as [[|[c0|] l]|] eqn:Hl; simpl in Hcov; try lia.
  - exists c0, l. split; [done|].
    unfold RemoveComponent. rewrite He, Hc.
    by rewrite (removeComponentFromList_head _ _ _ (Some c0 :: l)).
  - exfalso. eapply Hnil; [done|]. by left.
Qed.

(** ** Systems *)

Lemma removeFirstNamed_app_absent (name : string) (l : list S) (s : S) :
  Forall (λ s', GetName s' ≠ name) l → GetName s = name →
  removeFirstNamed name (l ++ [s]) = l.
Proof.
  intros Hl Hs. rewrite (removeFirstNamed_first name l [] s) by done.
  apply app_nil_r.
Qed.

Lemma removeFirstNamed_app_present (name : string) (l k : list S) :
  Exists (λ s', GetName s' = name) l →
  removeFirstNamed name (l ++ k) = removeFirstNamed name l ++ k.
Proof.
  induction 1 as [s l Hs | s l _ IH]; simpl.
  - by destruct (decide (GetName s = name)).
  - destruct (decide (GetName s = name)); [done|]. by rewrite IH.
Qed.

Lemma removeFirstNamed_length_present (name : string) (l : list S) :
  Exists (λ s', GetName s' = name) l →
  Datatypes.S (length (removeFirstNamed name l)) = length l.
Proof.
  induction 1 as [s l Hs | s l _ IH]; simpl.
  - by destruct (decide (GetName s = name)).
  - destruct (decide (GetName s = name)); [done|]. simpl. by rewrite IH.
Qed.

(** X9. [AddSystem] registers the system last and raises the system count
    by one. [RemoveSystem] by the name of a system just added gives the
    world back when no system registered before reports that name;
    otherwise it removes the system registered before and keeps the new
    one. [RemoveSystem] lowers the count by one when a system has the
    name. *)
Theorem AddSystem_then_RemoveSystem (s : S) w :
  systems (AddSystem s w) = systems w ++ [s] ∧
  GetSystemCount (AddSystem s w) = Datatypes.S (GetSystemCount w) ∧
  (Forall (λ s', GetName s' ≠ GetName s) (systems w) →
     RemoveSystem (GetName s) (AddSystem s w) = w) ∧
  (Exists (λ s', GetName s' = GetName s) (systems w) →
     RemoveSystem (GetName s) (AddSystem s w) = AddSystem s (RemoveSystem (GetName s) w)) ∧
  (∀ name, Exists (λ s', GetName s' = name) (systems w) →
     Datatypes.S (GetSystemCount (RemoveSystem name w)) = GetSystemCount w).
Proof.
  split; [done|]. split; [|split; [|split]].
  - unfold GetSystemCount. simpl. rewrite length_app. simpl. lia.
  - intros Hl. unfold RemoveSystem, AddSystem. simpl.
    rewrite removeFirstNamed_app_absent by done. by destruct w.
  - intros Hl. unfold RemoveSystem, AddSystem. simpl.
    by rewrite removeFirstNamed_app_present.
  - intros name Hl. unfold GetSystemCount. simpl.
    by apply removeFirstNamed_length_present.
Qed.

(** ** The loop of [DestroyEntity] *)

(** X10. The world [DestroyEntity] leaves does not depend on the order in
    which the entity's component types are visited: running the loop over
    any arrangement of them and deleting the entity gives the same world. *)
Theorem DestroyEntity_any_order i w (e : Entity C) (tys : list string) :
  entities w !! i = Some e →
  tys ≡ₚ (map_to_list (Components e)).*1 →
  mkWorld (delete i (entities (removeAllFromList i tys w)))
    (components (removeAllFromList i tys w))
    (systems (removeAllFromList i tys w))
    (nextEntityID (removeAllFromList i tys w))
  = DestroyEntity i w.
Proof.
  intros He Hp. unfold DestroyEntity. rewrite He. simpl.
  by rewrite (removeAllFromList_perm i tys _ w Hp).
Qed.

End world.

(** ** Tag components *)

Lemma HasTag_spec (tag : string) (tags : list string) :
  HasTag tag tags = true ↔ tag ∈ tags.
Proof.
  induction tags as [|t tags IH]; simpl.
  - split; [done | by intros ?%elem_of_nil].
  - destruct (decide (t = tag)) as [->|Hne].
    + split; [by left | done].
    + rewrite IH, elem_of_cons. split; [by auto|]. by intros [->|?].
Qed.

(** X11. [HasTag] answers whether the tag is among the tags of the
    component; after [AddTag(tag)] the component has the tag and has, of
    the other tags, exactly those it had; [AddTag] appends even a tag that
    is already there. *)
Theorem AddTag_then_HasTag (tag : string) (tags : list string) :
  (∀ t, HasTag t tags = true ↔ t ∈ tags) ∧
  HasTag tag (AddTag tag tags) = true ∧
  (∀ t, t ≠ tag → HasTag t (AddTag tag tags) = HasTag t tags) ∧
  length (AddTag tag tags) = Datatypes.S (length tags).
Proof.
  split; [intros t; apply HasTag_spec|]. split; [|split].
  - apply HasTag_spec, elem_of_app. right. by left.
  - intros t Hne. apply eq_true_iff_eq. rewrite !HasTag_spec.
    unfold AddTag. rewrite elem_of_app, list_elem_of_singleton. by intuition.
  - unfold AddTag. rewrite length_app. simpl. lia.
Qed.

(** ** The properties on concrete worlds *)

(** X4 on a new world in which one entity was created and tagged. *)
Lemma CreateEntity_is_fresh_witness :
  (N.of_nat (creates tagged_calls) < uint64_modulus)%N ∧
  (CreateEntity (run tagged_calls (NewWorld : DemoWorld)).1).1 = 1%N ∧
  entities (run tagged_calls (NewWorld : DemoWorld)).1
    !! (CreateEntity (run tagged_calls (NewWorld : DemoWorld)).1).1 = None ∧
  GetEntityCount (CreateEntity (run tagged_calls (NewWorld : DemoWorld)).1).2
    = Datatypes.S (GetEntityCount (run tagged_calls (NewWorld : DemoWorld)).1).
Proof.
  assert (N.of_nat (creates tagged_calls) < uint64_modulus)%N as Hlt by (by vm_compute).
  split; [done|]. split; [reflexivity|].
  destruct (CreateEntity_is_fresh tagged_calls Hlt) as (Hfresh & Hcount & _).
  by split.
Defined.

(** X5 on the same world. *)
Lemma stored_entities_keep_ID_and_Active_witness :
  entities (run tagged_calls (NewWorld : DemoWorld)).1 !! 0%N
    = Some (mkEntity 0 {["tag" := NewTagComponent ["player"]]} true) ∧
  ID (mkEntity 0 {["tag" := NewTagComponent ["player"]]} true) = 0%N ∧
  Active (mkEntity 0 {["tag" := NewTagComponent ["player"]]} true) = true.
Proof.
  assert (entities (run tagged_calls (NewWorld : DemoWorld)).1 !! 0%N
          = Some (mkEntity 0 {["tag" := NewTagComponent ["player"]]} true))
    as He by (by vm_compute).
  split; [done|].
  apply (stored_entities_keep_ID_and_Active tagged_calls 0%N _ He).
Defined.

(** X6 on the same world. *)
Lemma GetComponent_returns_the_type_witness :
  GetComponent 0 "tag" (run tagged_calls (NewWorld : DemoWorld)).1
    = Some (NewTagComponent ["player"]) ∧
  GetType (NewTagComponent ["player"]) = "tag".
Proof.
  assert (GetComponent 0 "tag" (run tagged_calls (NewWorld : DemoWorld)).1
          = Some (NewTagComponent ["player"])) as Hc by reflexivity.
  split; [done|].
  apply (GetComponent_returns_the_type tagged_calls 0%N "tag" _ Hc).
Defined.

(** The global list may be longer than the number of holders: in the
    two-entity example world the physics component was added twice to one
    entity. *)
Example global_list_with_a_stale_entry :
  holders "physics" demo_world2 = 1 ∧ listed "physics" demo_world2 = 2.
Proof. by vm_compute. Qed.

(** X8 on two tagged entities: removing the tag of entity [1] cuts the
    component of entity [0] from the global list and leaves that of
    entity [1] in it. *)
Lemma RemoveComponent_cuts_oldest_entry_witness :
  GetComponent 1 "tag" (run two_tagged_calls (NewWorld : DemoWorld)).1
    = Some (NewTagComponent ["enemy"]) ∧
  components (run two_tagged_calls (NewWorld : DemoWorld)).1 !! "tag"
    = Some [Some (NewTagComponent ["player"]); Some (NewTagComponent ["enemy"])] ∧
  components (RemoveComponent 1 "tag" (run two_tagged_calls (NewWorld : DemoWorld)).1)
    !! "tag" = Some [Some (NewTagComponent ["enemy"])] ∧
  (∃ c0 l,
     components (run two_tagged_calls (NewWorld : DemoWorld)).1 !! "tag"
       = Some (Some c0 :: l) ∧
     components (RemoveComponent 1 "tag" (run two_tagged_calls (NewWorld : DemoWorld)).1)
       !! "tag" = Some l).
Proof.
  assert (GetComponent 1 "tag" (run two_tagged_calls (NewWorld : DemoWorld)).1
          = Some (NewTagComponent ["enemy"])) as Hc by reflexivity.
  split; [done|]. split; [by vm_compute|]. split; [by vm_compute|].
  apply (RemoveComponent_cuts_oldest_entry two_tagged_calls 1%N "tag" _ Hc).
Defined.

(** X10 on entity [0] of the two-entity example world, which holds a tag
    and a physics component. *)
Lemma DestroyEntity_any_order_witness :
  (∃ e, entities demo_world2 !! 0%N = Some e ∧
        ["tag"; "physics"] ≡ₚ (map_to_list (Components e)).*1 ∧
        ["physics"; "tag"] ≡ₚ (map_to_list (Components e)).*1) ∧
  mkWorld (delete 0%N (entities (removeAllFromList 0 ["tag"; "physics"] demo_world2)))
    (components (removeAllFromList 0 ["tag"; "physics"] demo_world2))
    (systems (removeAllFromList 0 ["tag"; "physics"] demo_world2))
    (nextEntityID (removeAllFromList 0 ["tag"; "physics"] demo_world2))
  = DestroyEntity 0 demo_world2.
Proof.
  destruct (entities demo_world2 !! 0%N) as [e|] eqn:He; [|by vm_compute in He].
  assert (["tag"; "physics"] ≡ₚ (map_to_list (Components e)).*1
          ∧ ["physics"; "tag"] ≡ₚ (map_to_list (Components e)).*1) as [Hp1 Hp2].
  { vm_compute in He. injection He as <-. vm_compute.
    split; [apply Permutation_swap || reflexivity | apply Permutation_swap || reflexivity]. }
  split; [by exists e|].
  apply (DestroyEntity_any_order 0%N demo_world2 e ["tag"; "physics"] He Hp1).
Defined.

End ECSMore.

(** * Further properties of the physics world *)

Module PhysicsMore.
Import Physics PhysicsFacts.

Local Open Scope float_scope.

Section heap.
Implicit Types (h : Heap) (w : World) (b : RigidBody).
Implicit Types (p q : N) (o order ps : list N).

(** ** What the loops keep *)

Lemma same_but_Position_refl b : same_but_Position b b.
Proof. by repeat split. Qed.

Lemma same_but_Position_trans b1 b2 b3 :
  same_but_Position b1 b2 → same_but_Position b2 b3 → same_but_Position b1 b3.
Proof.
  intros (?&?&?&?&?&?&?&?) (?&?&?&?&?&?&?&?). repeat split; congruence.
Qed.

Lemma same_fixed_fields_refl b : same_fixed_fields b b.
Proof. by repeat split. Qed.

Lemma same_fixed_fields_trans b1 b2 b3 :
  same_fixed_fields b1 b2 → same_fixed_fields b2 b3 → same_fixed_fields b1 b3.
Proof.
  intros (?&?&?&?&?&?) (?&?&?&?&?&?). repeat split; congruence.
Qed.

Lemma same_but_Position_fixed b b' : same_but_Position b b' → same_fixed_fields b b'.
Proof. intros (?&?&?&?&?&?&?&?). by repeat split. Qed.

Lemma heap_related_refl (R : RigidBody → RigidBody → Prop) h :
  (∀ b, R b b) → heap_related R h h.
Proof. intros HR p. destruct (h !! p); by constructor. Qed.

Lemma heap_related_trans (R : RigidBody → RigidBody → Prop) h1 h2 h3 :
  (∀ b1 b2 b3, R b1 b2 → R b2 b3 → R b1 b3) →
  heap_related R h1 h2 → heap_related R h2 h3 → heap_related R h1 h3.
Proof.
  intros HR H12 H23 p. specialize (H12 p). specialize (H23 p).
  destruct H12 as [b1 b2 H12|]; inversion H23; subst; constructor.
  by eapply HR.
Qed.

Lemma heap_related_mono (R R' : RigidBody → RigidBody → Prop) h h' :
  (∀ b b', R b b' → R' b b') → heap_related R h h' → heap_related R' h h'.
Proof. intros HR H p. destruct (H p); constructor. by apply HR. Qed.

Lemma heap_related_alter (R : RigidBody → RigidBody → Prop)
    (f : RigidBody → RigidBody) p h :
  (∀ b, R b b) → (∀ b, R b (f b)) → heap_related R h (alter f p h).
Proof.
  intros Hrefl Hf q. destruct (decide (p = q)) as [->|Hne].
  - rewrite lookup_alter_eq. destruct (h !! q); by constructor.
  - rewrite lookup_alter_ne by done. destruct (h !! q); by constructor.
Qed.

Lemma integrate_fixed_fields g dt b : same_fixed_fields b (integrate g dt b).
Proof. unfold integrate. destruct (Active b) eqn:Hb; by repeat split. Qed.

Lemma integrateBodies_fixed_fields order dt w h :
  heap_related same_fixed_fields h (integrateBodies order dt w h).
Proof.
  revert h. induction order as [|id order IH]; intros h.
  - apply heap_related_refl, same_fixed_fields_refl.
  - rewrite integrateBodies_cons.
    eapply heap_related_trans; [apply same_fixed_fields_trans| |apply IH].
    destruct (bodies w !! id) as [p|].
    + apply heap_related_alter; [apply same_fixed_fields_refl|].
      intros b. apply integrate_fixed_fields.
    + apply heap_related_refl, same_fixed_fields_refl.
Qed.

Lemma resolveCollision_only_Position body1 body2 h :
  heap_related same_but_Position h (resolveCollision body1 body2 h).
Proof.
  assert (heap_related same_but_Position h h) as Hrefl
    by apply heap_related_refl, same_but_Position_refl.
  unfold resolveCollision.
  destruct (h !! body1) as [b1|]; [|done].
  destruct (h !! body2) as [b2|]; [|done].
  destruct (0 <? collisionOverlap b1 b2); [|done].
  destruct (0 <? InverseMass b1), (0 <? InverseMass b2); try done.
  - eapply heap_related_trans; [apply same_but_Position_trans| |];
      (apply heap_related_alter; [apply same_but_Position_refl|]);
      intros b; by repeat split.
  - apply heap_related_alter; [apply same_but_Position_refl|].
    intros b; by repeat split.
  - apply heap_related_alter; [apply same_but_Position_refl|].
    intros b; by repeat split.
Qed.

Lemma collide_only_Position body1 body2 h :
  heap_related same_but_Position h (collide body1 body2 h).
Proof.
  unfold collide.
  destruct (h !! body1) as [b1|];
    [|apply heap_related_refl, same_but_Position_refl].
  destruct (h !! body2) as [b2|];
    [|apply heap_related_refl, same_but_Position_refl].
  destruct (checkCollision b1 b2);
    [|apply heap_related_refl, same_but_Position_refl].
  apply resolveCollision_only_Position.
Qed.

Lemma collideWith_only_Position body1 rest h :
  heap_related same_but_Position h (collideWith body1 rest h).
Proof.
  revert h. induction rest as [|body2 rest IH]; intros h; simpl.
  - apply heap_related_refl, same_but_Position_refl.
  - eapply heap_related_trans; [apply same_but_Position_trans| |apply IH].
    apply collide_only_Position.
Qed.

Lemma collidePairs_only_Position ps h :
  heap_related same_but_Position h (collidePairs ps h).
Proof.
  revert h. induction ps as [|body1 ps IH]; intros h; simpl.
  - apply heap_related_refl, same_but_Position_refl.
  - eapply heap_related_trans; [apply same_but_Position_trans| |apply IH].
    apply collideWith_only_Position.
Qed.

(** X12. [Update] allocates and frees no body and never changes the ID,
    mass, inverse mass, width, height or [Active] flag of a body; its
    collision pass changes nothing but positions: velocities and
    accumulated forces are as the integrator left them. *)
Theorem Update_keeps_fixed_fields o1 o2 dt w h :
  heap_related same_fixed_fields h (Update o1 o2 dt w h) ∧
  (∀ o h0, heap_related same_but_Position h0 (checkCollisions o w h0)).
Proof.
  split.
  - unfold Update, checkCollisions.
    eapply heap_related_trans;
      [apply same_fixed_fields_trans | apply integrateBodies_fixed_fields |].
    eapply heap_related_mono; [apply same_but_Position_fixed|].
    apply collidePairs_only_Position.
  - intros o h0. apply collidePairs_only_Position.
Qed.

(** ** Bodies outside the world *)

Lemma integrateBodies_outside order dt w h p :
  ¬ in_world w p → integrateBodies order dt w h !! p = h !! p.
Proof.
  intros Hout. revert h. induction order as [|id order IH]; intros h; [done|].
  rewrite integrateBodies_cons, IH.
  destruct (bodies w !! id) as [q|] eqn:Hq; [|done].
  apply lookup_alter_ne. intros ->. apply Hout. by exists id.
Qed.

Lemma activeBodies_in_world order w h p :
  p ∈ activeBodies order w h → in_world w p.
Proof.
  intros (id & _ & Hid)%list_elem_of_omap. exists id.
  destruct (bodies w !! id) as [q|]; [|done].
  destruct (h !! q) as [b|]; [|done].
  destruct (Active b); [|done]. by injection Hid as ->.
Qed.

Lemma Update_outside o1 o2 dt w h p :
  ¬ in_world w p → Update o1 o2 dt w h !! p = h !! p.
Proof.
  intros Hout. unfold Update, checkCollisions.
  rewrite collidePairs_other; [by apply integrateBodies_outside|].
  intros Hin%activeBodies_in_world. by apply Hout.
Qed.

(** X13. A body is simulated only while the world stores its pointer:
    after [RemoveBody(id)], [Update] leaves the body that was stored under
    [id] as it is, in every field, unless the pointer is stored under
    another ID too. *)
Theorem removed_body_is_not_simulated o1 o2 dt w h (id : N) p :
  bodies w !! id = Some p →
  (∀ id', id' ≠ id → bodies w !! id' ≠ Some p) →
  GetBody id (RemoveBody id w) = None ∧
  Update o1 o2 dt (RemoveBody id w) h !! p = h !! p.
Proof.
  intros Hid Hother. split; [apply lookup_delete_eq|].
  apply Update_outside. intros [id' Hid']. simpl in Hid'.
  apply lookup_delete_Some in Hid' as [Hne Hid']. by eapply Hother.
Qed.

(** X14. [AddBody] files the body under the ID read through the pointer:
    [GetBody] by that ID returns the pointer, the bodies stored under
    other IDs stay, and a body that was stored under the same ID is
    replaced and, unless stored under another ID too, no longer
    simulated. [RemoveBody] of an ID that is not stored changes nothing. *)
Theorem AddBody_files_under_ID w h p b :
  h !! p = Some b →
  GetBody (ID b) (AddBody p h w) = Some p ∧
  (∀ id, id ≠ ID b → GetBody id (AddBody p h w) = GetBody id w) ∧
  (∀ p0 o1 o2 dt h', GetBody (ID b) w = Some p0 → p0 ≠ p →
     (∀ id', id' ≠ ID b → bodies w !! id' ≠ Some p0) →
     Update o1 o2 dt (AddBody p h w) h' !! p0 = h' !! p0) ∧
  (∀ id, GetBody id w = None → RemoveBody id w = w) ∧
  (∀ id, GetBody id (RemoveBody id (AddBody p h w)) = None).
Proof.
  intros Hp. unfold AddBody, GetBody. rewrite Hp. simpl.
  split; [apply lookup_insert_eq|]. split; [|split; [|split]].
  - intros id Hne. by apply lookup_insert_ne.
  - intros p0 o1 o2 dt h' Hp0 Hne Hother. apply Update_outside.
    intros [id' Hid']. simpl in Hid'.
    apply lookup_insert_Some in Hid' as [[_ ?] | [? Hid']]; [done|].
    by eapply Hother.
  - intros id Hid. unfold RemoveBody. rewrite delete_id by done. by destruct w.
  - intros id. apply lookup_delete_eq.
Qed.

(** ** The integrator *)

Lemma integrateBodies_perm o o' dt w h :
  o ≡ₚ o' → integrateBodies o dt w h = integrateBodies o' dt w h.
Proof.
  intros Hp. revert h.
  induction Hp as [|id o o' _ IH|id1 id2 o|o1 o2 o3 _ IH1 _ IH2]; intros h.
  - done.
  - rewrite !integrateBodies_cons. apply IH.
  - rewrite !integrateBodies_cons. f_equal.
    destruct (bodies w !! id1) as [p1|], (bodies w !! id2) as [p2|]; try done.
    destruct (decide (p1 = p2)) as [->|Hne]; [done|].
    by apply alter_alter_ne.
  - by rewrite IH1.
Qed.

(** X15. What [Update] leaves does not depend on the order in which its
    first loop visits the bodies. *)
Theorem Update_first_loop_any_order o1 o1' o2 dt w h :
  o1 ≡ₚ o1' → Update o1 o2 dt w h = Update o1' o2 dt w h.
Proof. intros Hp. unfold Update. by rewrite (integrateBodies_perm o1 o1'). Qed.

Lemma integrateBodies_resets_Force order dt w h p b :
  h !! p = Some b → Active b = true →
  (Force b = {| X := 0; Y := 0 |} ∨ ∃ id, id ∈ order ∧ bodies w !! id = Some p) →
  ∃ b', integrateBodies order dt w h !! p = Some b' ∧
        Force b' = {| X := 0; Y := 0 |} ∧ Active b' = true.
Proof.
  revert h b. induction order as [|id order IH]; intros h b Hp Hb Hor.
  - exists b. destruct Hor as [? | (id & []%elem_of_nil & _)]. by auto.
  - rewrite integrateBodies_cons.
    destruct (bodies w !! id) as [q|] eqn:Hq.
    + destruct (decide (q = p)) as [->|Hne].
      * apply (IH _ (integrate (gravity w) dt b)).
        -- by rewrite lookup_alter_eq, Hp.
        -- by rewrite integrate_Active.
        -- left. unfold integrate. by rewrite Hb.
      * apply (IH _ b); [by rewrite lookup_alter_ne | done |].
        destruct Hor as [? | (id' & [->|?]%elem_of_cons & Hid')]; [by auto | | by eauto].
        congruence.
    + apply (IH _ b); [done..|].
      destruct Hor as [? | (id' & [->|?]%elem_of_cons & Hid')]; [by auto | | by eauto].
      congruence.
Qed.

(** X16. After [Update], whatever was accumulated before, the accumulated
    force of every active body stored in the world is [(0, 0)]. *)
Theorem Update_resets_Force o1 o2 dt w h (id : N) p b :
  body_order w o1 →
  bodies w !! id = Some p → h !! p = Some b → Active b = true →
  ∃ b', Update o1 o2 dt w h !! p = Some b' ∧ Force b' = {| X := 0; Y := 0 |}.
Proof.
  intros Ho Hid Hp Hb.
  assert (id ∈ o1) as Hin.
  { unfold body_order in Ho. rewrite Ho. apply list_elem_of_fmap.
    exists (id, p). split; [done|]. by apply elem_of_map_to_list. }
  destruct (integrateBodies_resets_Force o1 dt w h p b Hp Hb) as (b1 & Hb1 & HF & _).
  { right. by exists id. }
  unfold Update, checkCollisions.
  pose proof (collidePairs_only_Position
                (activeBodies o2 w (integrateBodies o1 dt w h))
                (integrateBodies o1 dt w h) p) as Hrel.
  rewrite Hb1 in Hrel. inversion Hrel as [? b' (_ & _ & HF' & _)|]; subst.
  exists b'. split; [done|]. congruence.
Qed.

Lemma integrate_at_rest_without_gravity g dt b :
  zero_vector g → is_finite dt = true → at_rest b →
  at_rest (integrate g dt b) ∧
  same_vector (Position (integrate g dt b)) (Position b).
Proof.
  intros [Hgx Hgy] Hdt ([Hvx Hvy] & [Hfx Hfy] & Hm & Him).
  unfold integrate. destruct (Active b).
  2:{ split; [done | apply same_vector_refl]. }
  assert (is_zero (X (Force b) + X g * Mass b) = true) as Hfx'
    by by apply is_zero_add, is_zero_mul_l.
  assert (is_zero (Y (Force b) + Y g * Mass b) = true) as Hfy'
    by by apply is_zero_add, is_zero_mul_l.
  assert (is_zero (X (Velocity b)
                   + (X (Force b) + X g * Mass b) * dt * InverseMass b) = true) as Hvx'.
  { apply is_zero_add; [done|]. apply is_zero_mul_l; [done|]. by apply is_zero_mul_l. }
  assert (is_zero (Y (Velocity b)
                   + (Y (Force b) + Y g * Mass b) * dt * InverseMass b) = true) as Hvy'.
  { apply is_zero_add; [done|]. apply is_zero_mul_l; [done|]. by apply is_zero_mul_l. }
  split; [by repeat split|].
  split; simpl; apply same_value_add_zero; by apply is_zero_mul_l.
Qed.

(** X17. Under a zero gravity vector a body at rest (zero velocity, no
    accumulated force, finite mass and inverse mass) has zero velocity
    after [Update(dt)] for every finite [dt], also when the collision pass
    pushes it away from a body it overlaps: collisions move bodies and
    give them no velocity. *)
Theorem no_gravity_no_velocity o1 o2 dt w h p b :
  h !! p = Some b → at_rest b →
  zero_vector (gravity w) → is_finite dt = true →
  ∃ b', Update o1 o2 dt w h !! p = Some b' ∧ zero_vector (Velocity b').
Proof.
  intros Hp Hrest Hg Hdt.
  destruct (integrateBodies_invariant at_rest o1 dt w h p b)
    as (b1 & Hb1 & Hrest1); [|done..|].
  { intros b' Hb'. by apply integrate_at_rest_without_gravity. }
  unfold Update, checkCollisions.
  pose proof (collidePairs_only_Position
                (activeBodies o2 w (integrateBodies o1 dt w h))
                (integrateBodies o1 dt w h) p) as Hrel.
  rewrite Hb1 in Hrel. inversion Hrel as [? b' (_ & HV & _)|]; subst.
  exists b'. split; [done|]. rewrite HV. by destruct Hrest1.
Qed.

(** ** Collisions *)

(** X18. The overlap test is symmetric: it gives the same answer for a
    pair of bodies taken in either order, for all values of their fields. *)
Theorem checkCollision_symmetric b1 b2 :
  checkCollision b1 b2 = checkCollision b2 b1.
Proof.
  unfold checkCollision.
  destruct (X (Position b1) + Width b1 / 2 <? X (Position b2) - Width b2 / 2),
    (X (Position b2) + Width b2 / 2 <? X (Position b1) - Width b1 / 2),
    (Y (Position b2) + Height b2 / 2 <? Y (Position b1) - Height b1 / 2),
    (Y (Position b1) + Height b1 / 2 <? Y (Position b2) - Height b2 / 2); done.
Qed.

(** X19. A body made by [NewRigidBody] with a mass that is not positive
    (zero, negative or not a number) has inverse mass [0] and is never
    written by the collision pass, whatever it overlaps; with a positive
    mass its inverse mass is [1 / mass]. *)
Theorem NewRigidBody_mass_guard (id : N) (position : Vector2) (width height mass : float) :
  ((0 <? mass) = false →
     InverseMass (NewRigidBody id position width height mass) = 0 ∧
     ∀ o w h p, h !! p = Some (NewRigidBody id position width height mass) →
       checkCollisions o w h !! p = Some (NewRigidBody id position width height mass)) ∧
  ((0 <? mass) = true →
     InverseMass (NewRigidBody id position width height mass) = 1 / mass).
Proof.
  split; intros Hm.
  - assert (InverseMass (NewRigidBody id position width height mass) = 0) as Him.
    { unfold NewRigidBody. simpl. by rewrite Hm. }
    split; [done|]. intros o w h p Hp.
    apply collidePairs_immovable; [done|]. by rewrite Him.
  - unfold NewRigidBody. simpl. by rewrite Hm.
Qed.

(** X20. When [resolveCollision] finds a positive overlap for two
    different bodies, it moves the first by the separation vector
    (the direction times half the overlap) backwards and the second by
    the same vector forwards, each only if its inverse mass is positive:
    the push does not grow or shrink with the masses, and a body pushed
    off a body that stays moves half the overlap. Other bodies stay. *)
Theorem resolveCollision_pushes_apart body1 body2 h b1 b2 :
  body1 ≠ body2 →
  h !! body1 = Some b1 → h !! body2 = Some b2 →
  (0 <? collisionOverlap b1 b2) = true →
  resolveCollision body1 body2 h !! body1 =
    Some (if 0 <? InverseMass b1
          then setPosition
                 (Sub (Position b1)
                    (Mul (collisionNormal b1 b2) (collisionOverlap b1 b2 / 2))) b1
          else b1) ∧
  resolveCollision body1 body2 h !! body2 =
    Some (if 0 <? InverseMass b2
          then setPosition
                 (Add (Position b2)
                    (Mul (collisionNormal b1 b2) (collisionOverlap b1 b2 / 2))) b2
          else b2) ∧
  (∀ q, q ≠ body1 → q ≠ body2 → resolveCollision body1 body2 h !! q = h !! q).
Proof.
  intros Hne H1 H2 Ho. split; [|split].
  - unfold resolveCollision. rewrite H1, H2, Ho.
    destruct (0 <? InverseMass b1), (0 <? InverseMass b2);
      rewrite ?(lookup_alter_ne _ _ body2 body1) by done;
      rewrite ?lookup_alter_eq, ?H1; done.
  - unfold resolveCollision. rewrite H1, H2, Ho.
    destruct (0 <? InverseMass b1), (0 <? InverseMass b2);
      rewrite ?lookup_alter_eq;
      rewrite ?(lookup_alter_ne _ _ body1 body2) by done;
      rewrite ?H2; done.
  - intros q Hq1 Hq2. by apply resolveCollision_other.
Qed.

End heap.

(** ** The properties on concrete worlds *)

Lemma two_body_world_bodies (b1 b2 : RigidBody) :
  bodies (two_body_world b1 b2) = <[ID b2 := 200%N]> (<[ID b1 := 100%N]> ∅).
Proof. reflexivity. Qed.

(** X13 on the wall and the ball: once the ball is removed from the
    world, [Update] leaves it where it is. *)
Lemma removed_body_is_not_simulated_witness :
  bodies (two_body_world wall ball) !! 2%N = Some 200%N ∧
  GetBody 2 (RemoveBody 2 (two_body_world wall ball)) = None ∧
  Update [1%N] [1%N] (1 / 60) (RemoveBody 2 (two_body_world wall ball))
    (two_body_heap wall ball) !! 200%N = Some ball.
Proof.
  assert (bodies (two_body_world wall ball) !! 2%N = Some 200%N) as Hid by reflexivity.
  split; [done|].
  apply (removed_body_is_not_simulated [1%N] [1%N] (1 / 60)
           (two_body_world wall ball) (two_body_heap wall ball) 2%N 200%N Hid).
  intros id' Hne. rewrite two_body_world_bodies.
  change (ID ball) with 2%N. change (ID wall) with 1%N.
  rewrite lookup_insert_ne by done.
  intros [[_ ?] | [_ ?]]%lookup_insert_Some; done.
Defined.

(** X14 on two bodies that both carry the ID [1]: the second replaces
    the first in the world, and [Update] no longer moves the first. *)
Lemma AddBody_files_under_ID_witness :
  two_body_heap twin1 wide_twin1 !! 200%N = Some wide_twin1 ∧
  GetBody 1 (AddBody 100 (two_body_heap twin1 wide_twin1) NewWorld) = Some 100%N ∧
  GetBody 1 (AddBody 200 (two_body_heap twin1 wide_twin1)
               (AddBody 100 (two_body_heap twin1 wide_twin1) NewWorld)) = Some 200%N ∧
  Update [1%N] [1%N] (1 / 60)
    (AddBody 200 (two_body_heap twin1 wide_twin1)
       (AddBody 100 (two_body_heap twin1 wide_twin1) NewWorld))
    (two_body_heap twin1 wide_twin1) !! 100%N = Some twin1.
Proof.
  assert (two_body_heap twin1 wide_twin1 !! 200%N = Some wide_twin1) as Hp
    by reflexivity.
  destruct (AddBody_files_under_ID
              (AddBody 100 (two_body_heap twin1 wide_twin1) NewWorld)
              (two_body_heap twin1 wide_twin1) 200%N wide_twin1 Hp)
    as (Hget & _ & Hold & _).
  split; [done|]. split; [reflexivity|]. split; [exact Hget|].
  apply (Hold 100%N); [reflexivity | done |].
  intros id' Hne. change (ID wide_twin1) with 1%N in Hne.
  change (bodies (AddBody 100 (two_body_heap twin1 wide_twin1) NewWorld))
    with (<[1%N := 100%N]> (∅ : gmap N N)).
  rewrite lookup_insert_ne by done. by rewrite lookup_empty.
Defined.

(** X15 on the wall and the ball, visited in the two possible orders. *)
Lemma Update_first_loop_any_order_witness :
  [1; 2]%N ≡ₚ [2; 1]%N ∧
  Update [1; 2]%N [1; 2]%N (1 / 60) (two_body_world wall ball) (two_body_heap wall ball)
  = Update [2; 1]%N [1; 2]%N (1 / 60) (two_body_world wall ball) (two_body_heap wall ball).
Proof.
  assert ([1; 2]%N ≡ₚ [2; 1]%N) as Hp by apply Permutation_swap.
  split; [done|]. by apply Update_first_loop_any_order.
Defined.

(** X16 on a ball on which the caller has put a force. *)
Lemma Update_resets_Force_witness :
  body_order (one_body_world (withForce {| X := 3; Y := 4 |} ball)) [2%N] ∧
  Force (withForce {| X := 3; Y := 4 |} ball) = {| X := 3; Y := 4 |} ∧
  (∃ b', Update [2%N] [2%N] (1 / 60)
           (one_body_world (withForce {| X := 3; Y := 4 |} ball))
           (one_body_heap (withForce {| X := 3; Y := 4 |} ball)) !! 100%N = Some b' ∧
         Force b' = {| X := 0; Y := 0 |}).
Proof.
  assert (body_order (one_body_world (withForce {| X := 3; Y := 4 |} ball)) [2%N])
    as Ho by (by vm_compute).
  split; [done|]. split; [done|].
  by apply (Update_resets_Force [2%N] [2%N] (1 / 60) _ _ 2%N 100%N
              (withForce {| X := 3; Y := 4 |} ball) Ho).
Defined.

(** X17 on two overlapping balls at rest in a world without gravity: the
    collision pass moves the first, and its velocity stays zero. *)
Lemma no_gravity_no_velocity_witness :
  two_body_heap wide_twin1 ball !! 100%N = Some wide_twin1 ∧
  at_rest wide_twin1 ∧
  Position <$> (Update [1; 2]%N [1; 2]%N (1 / 60) (calm_world wide_twin1 ball)
                  (two_body_heap wide_twin1 ball) !! 100%N)
    = Some {| X := -0.75; Y := 0 |} ∧
  (∃ b', Update [1; 2]%N [1; 2]%N (1 / 60) (calm_world wide_twin1 ball)
           (two_body_heap wide_twin1 ball) !! 100%N = Some b' ∧
         zero_vector (Velocity b')).
Proof.
  assert (two_body_heap wide_twin1 ball !! 100%N = Some wide_twin1) as Hp by reflexivity.
  assert (at_rest wide_twin1) as Hrest by (by repeat split).
  split; [done|]. split; [done|]. split; [reflexivity|].
  by apply (no_gravity_no_velocity [1; 2]%N [1; 2]%N (1 / 60)
              (calm_world wide_twin1 ball) (two_body_heap wide_twin1 ball)
              100%N wide_twin1 Hp Hrest).
Defined.

(** X19 on bodies made with a negative mass and with a mass that is not a
    number. *)
Lemma NewRigidBody_mass_guard_witness :
  InverseMass (NewRigidBody 1 {| X := 0; Y := 0 |} 1 1 (-2)) = 0 ∧
  InverseMass (NewRigidBody 1 {| X := 0; Y := 0 |} 1 1 nan) = 0 ∧
  InverseMass (NewRigidBody 1 {| X := 0; Y := 0 |} 1 1 4) = 0.25.
Proof.
  destruct (NewRigidBody_mass_guard 1 {| X := 0; Y := 0 |} 1 1 (-2)) as [Hneg _].
  destruct (NewRigidBody_mass_guard 1 {| X := 0; Y := 0 |} 1 1 nan) as [Hnan _].
  destruct (NewRigidBody_mass_guard 1 {| X := 0; Y := 0 |} 1 1 4) as [_ Hpos].
  split; [by apply Hneg|]. split; [by apply Hnan|].
  rewrite Hpos; reflexivity.
Defined.

(** X20 on two bodies of width three at the origin: the first of the pair
    ends at [(-1, 0)] and the second at [(1, 0)]. *)
Lemma resolveCollision_pushes_apart_witness :
  (0 <? collisionOverlap wide_twin1 wide_twin2) = true ∧
  Position <$> (resolveCollision 100 200 (two_body_heap wide_twin1 wide_twin2) !! 100%N)
    = Some {| X := -1; Y := 0 |} ∧
  Position <$> (resolveCollision 100 200 (two_body_heap wide_twin1 wide_twin2) !! 200%N)
    = Some {| X := 1; Y := 0 |}.
Proof.
  assert ((0 <? collisionOverlap wide_twin1 wide_twin2) = true) as Ho by reflexivity.
  destruct (resolveCollision_pushes_apart 100%N 200%N
              (two_body_heap wide_twin1 wide_twin2) wide_twin1 wide_twin2)
    as (H1 & H2 & _); [done | reflexivity | reflexivity | done |].
  split; [done|]. rewrite H1, H2. split; reflexivity.
Defined.

(** The second loop is another matter: for two coinciding bodies the
    order in which the bodies are visited decides which of them is pushed
    to the left. *)
Example Update_second_loop_order_matters :
  Position <$> (Update [1; 2]%N [1; 2]%N 0 (calm_world wide_twin1 wide_twin2)
                  (two_body_heap wide_twin1 wide_twin2) !! 100%N)
    = Some {| X := -1; Y := 0 |} ∧
  Position <$> (Update [1; 2]%N [2; 1]%N 0 (calm_world wide_twin1 wide_twin2)
                  (two_body_heap wide_twin1 wide_twin2) !! 100%N)
    = Some {| X := 1; Y := 0 |}.
Proof. split; reflexivity. Qed.

End PhysicsMore.

(** * More properties of the input manager *)

Module InputFacts.

Import Input.

Local Open Scope float_scope.

Implicit Types (m : Manager) (key button : Z) (ev : Event) (evs es : list Event).
Implicit Types (action : Action) (cur prev : gmap Z bool).

Lemma sub_diag_finite (v : float) : is_finite v = true → v - v = 0.
Proof.
  intros Hv. apply Prim2SF_inj. rewrite FloatAxioms.sub_spec.
  change (Prim2SF 0) with (S754_zero false).
  destruct (PhysicsFacts.is_finite_spec v Hv) as [[s ->] | (s & p & e & ->)].
  - by destruct s.
  - unfold SF64sub, SFsub. by rewrite Z.sub_diag.
Qed.

Lemma state_insert cur key key' (v : bool) :
  state (<[key := v]> cur) key' = if decide (key = key') then v else state cur key'.
Proof.
  unfold state. destruct (decide (key = key')) as [->|Hne].
  - by rewrite lookup_insert_eq.
  - by rewrite lookup_insert_ne.
Qed.

Lemma foldl_insert_lookup (l : list (Z * bool)) (dst : gmap Z bool) key :
  NoDup l.*1 →
  foldl (λ d kv, <[kv.1 := kv.2]> d) dst l !! key =
  match (list_to_map l : gmap Z bool) !! key with
  | Some v => Some v
  | None => dst !! key
  end.
Proof.
  revert dst. induction l as [|[k v] l IH]; intros dst Hnd; simpl.
  - by rewrite lookup_empty.
  - apply NoDup_cons in Hnd as [Hk Hnd]. rewrite IH by done.
    destruct (decide (k = key)) as [->|Hne].
    + rewrite (lookup_insert_eq (list_to_map l)).
      by rewrite (not_elem_of_list_to_map_1 _ _ Hk), lookup_insert_eq.
    + rewrite (lookup_insert_ne (list_to_map l)) by done.
      by rewrite (lookup_insert_ne dst).
Qed.

Lemma copyStates_lookup cur prev key :
  copyStates cur prev !! key =
  match cur !! key with Some v => Some v | None => prev !! key end.
Proof.
  unfold copyStates. rewrite foldl_insert_lookup by apply NoDup_fst_map_to_list.
  by rewrite list_to_map_to_list.
Qed.

Lemma state_copyStates cur prev key :
  prev_within cur prev → state (copyStates cur prev) key = state cur key.
Proof.
  intros Hin. unfold state. rewrite copyStates_lookup.
  destruct (cur !! key) eqn:Hk; [done|]. by apply Hin.
Qed.

Lemma prev_within_insert cur prev key (v : bool) :
  prev_within cur prev → prev_within (<[key := v]> cur) prev.
Proof. intros Hin k Hk. apply lookup_insert_None in Hk as [Hk _]. by apply Hin. Qed.

Lemma prev_within_copyStates cur prev :
  prev_within cur prev → prev_within cur (copyStates cur prev).
Proof.
  intros Hin k Hk. rewrite state_copyStates by done. unfold state. by rewrite Hk.
Qed.

Lemma handle_tidy m ev : tidy m → tidy (handle m ev).
Proof.
  intros [Hk Hb]. destruct ev as [key [| |]|button [| |]| | |]; split; simpl;
    auto using prev_within_insert, prev_within_copyStates.
Qed.

Lemma after_app evs es m : after (evs ++ es) m = after es (after evs m).
Proof. apply foldl_app. Qed.

Lemma after_tidy evs m : tidy m → tidy (after evs m).
Proof.
  revert m. induction evs as [|ev evs IH]; intros m Hm; [done|].
  apply IH. by apply handle_tidy.
Qed.

Lemma NewManager_tidy : tidy NewManager.
Proof. by split; intros k _. Qed.

Lemma Update_prevKeys m key :
  tidy m → state (prevKeys (Update m)) key = state (keys m) key.
Proof. intros [Hk _]. simpl. by apply state_copyStates. Qed.

Lemma Update_prevMouseButtons m button :
  tidy m → state (prevMouseButtons (Update m)) button = state (mouseButtons m) button.
Proof. intros [_ Hb]. simpl. by apply state_copyStates. Qed.

(** Between two calls of [Update] the recorded previous states stay. *)
Lemma after_prev es m :
  Forall (λ ev, is_Frame ev = false) es →
  prevKeys (after es m) = prevKeys m ∧
  prevMouseButtons (after es m) = prevMouseButtons m.
Proof.
  revert m. induction es as [|ev es IH]; intros m Hes; [done|].
  apply Forall_cons in Hes as [Hev Hes]. simpl.
  destruct (IH (handle m ev) Hes) as [-> ->].
  by destruct ev as [key [| |]|button [| |]| | |].
Qed.

Lemma after_keys es m key :
  Forall (λ ev, ¬ changes_key key ev) es →
  state (keys (after es m)) key = state (keys m) key.
Proof.
  revert m. induction es as [|ev es IH]; intros m Hes; [done|].
  apply Forall_cons in Hes as [Hev Hes]. simpl. rewrite IH by done.
  destruct ev as [k [| |]|button [| |]| | |]; simpl; try done.
  - rewrite state_insert. destruct (decide (k = key)) as [->|]; [|done].
    destruct Hev. by right.
  - rewrite state_insert. destruct (decide (k = key)) as [->|]; [|done].
    destruct Hev. by left.
Qed.

Lemma after_mouseButtons es m button :
  Forall (λ ev, ¬ changes_button button ev) es →
  state (mouseButtons (after es m)) button = state (mouseButtons m) button.
Proof.
  revert m. induction es as [|ev es IH]; intros m Hes; [done|].
  apply Forall_cons in Hes as [Hev Hes]. simpl. rewrite IH by done.
  destruct ev as [k [| |]|b [| |]| | |]; simpl; try done.
  - rewrite state_insert. destruct (decide (b = button)) as [->|]; [|done].
    destruct Hev. by right.
  - rewrite state_insert. destruct (decide (b = button)) as [->|]; [|done].
    destruct Hev. by left.
Qed.

Lemma after_mouse es m :
  Forall (λ ev, is_CursorEvent ev = false) es →
  mousePos (after es (Update m)) = mousePos m ∧
  prevMousePos (after es (Update m)) = mousePos m.
Proof.
  intros Hes.
  assert (∀ m', prevMousePos m' = mousePos m' →
    mousePos (after es m') = mousePos m' ∧ prevMousePos (after es m') = mousePos m')
    as Hgen.
  { induction es as [|ev es IH]; intros m' Hm'; [done|].
    apply Forall_cons in Hes as [Hev Hes].
    change (after (ev :: es) m') with (after es (handle m' ev)).
    assert (mousePos (handle m' ev) = mousePos m' ∧
            prevMousePos (handle m' ev) = mousePos m') as [Hpos Hprev].
    { destruct ev as [k [| |]|b [| |]| | |]; simpl in *; try done.
      by destruct (mousePos m'). }
    destruct (IH Hes (handle m' ev)) as [-> ->]; [congruence|done]. }
  destruct (Hgen (Update m)) as [-> ->]; simpl; by destruct (mousePos m).
Qed.

(** X21. Right after [Update], on a manager that started as [NewManager]
    and went through any callbacks and updates, no key and no mouse button
    is reported as just pressed or just released: [Update] has made the
    previous state of every key equal to its current state. *)
Theorem Update_leaves_no_edge evs key button :
  let m := Update (after evs NewManager) in
  IsKeyJustPressed key m = false ∧ IsKeyJustReleased key m = false ∧
  IsMouseButtonJustPressed button m = false ∧
  IsMouseButtonJustReleased button m = false.
Proof.
  intros m. pose proof (after_tidy evs _ NewManager_tidy) as Ht.
  unfold IsKeyJustPressed, IsKeyJustReleased, IsMouseButtonJustPressed,
    IsMouseButtonJustReleased, m.
  rewrite (Update_prevKeys _ _ Ht), (Update_prevMouseButtons _ _ Ht). simpl.
  by destruct (state (keys _) key), (state (mouseButtons _) button).
Qed.

(** X22. Between two calls of [Update] the edge queries compare the
    current state of a key or button with its state at the last [Update]:
    just pressed is down now and up then, just released is up now and down
    then, whatever happened in between. *)
Theorem edges_compare_with_last_Update evs es key button :
  Forall (λ ev, is_Frame ev = false) es →
  let m0 := Update (after evs NewManager) in
  let m := after es m0 in
  IsKeyJustPressed key m = IsKeyPressed key m && negb (IsKeyPressed key m0) ∧
  IsKeyJustReleased key m = negb (IsKeyPressed key m) && IsKeyPressed key m0 ∧
  IsMouseButtonJustPressed button m =
    IsMouseButtonPressed button m && negb (IsMouseButtonPressed button m0) ∧
  IsMouseButtonJustReleased button m =
    negb (IsMouseButtonPressed button m) && IsMouseButtonPressed button m0.
Proof.
  intros Hes m0 m. pose proof (after_tidy evs _ NewManager_tidy) as Ht.
  destruct (after_prev es m0 Hes) as [Hk Hb].
  unfold IsKeyJustPressed, IsKeyJustReleased, IsMouseButtonJustPressed,
    IsMouseButtonJustReleased, IsKeyPressed, IsMouseButtonPressed.
  subst m. rewrite Hk, Hb. subst m0.
  by rewrite (Update_prevKeys _ _ Ht), (Update_prevMouseButtons _ _ Ht).
Qed.

Lemma edges_compare_with_last_Update_witness :
  let m := after [KeyEvent 32 Press; KeyEvent 32 Release] (Update (after [Frame] NewManager)) in
  IsKeyJustPressed 32 m = false ∧ IsKeyJustReleased 32 m = false.
Proof.
  assert (Forall (λ ev, is_Frame ev = false) [KeyEvent 32 Press; KeyEvent 32 Release])
    as Hes by (by repeat constructor).
  destruct (edges_compare_with_last_Update [Frame]
    [KeyEvent 32 Press; KeyEvent 32 Release] 32 0 Hes) as (H1 & H2 & _).
  split; [rewrite H1|rewrite H2]; by vm_compute.
Defined.

(** X23. [IsKeyPressed] and [IsMouseButtonPressed] report the last press
    or release the callback received for the key or button: repeats, the
    events of other keys, cursor and scroll events and [Update] do not
    change them. *)
Theorem pressed_is_last_action evs es key action m :
  action ≠ Repeat →
  Forall (λ ev, ¬ changes_key key ev ∧ ¬ changes_button key ev) es →
  IsKeyPressed key (after (evs ++ KeyEvent key action :: es) m) = is_Press action ∧
  IsMouseButtonPressed key (after (evs ++ ButtonEvent key action :: es) m) =
    is_Press action.
Proof.
  intros Ha Hes. unfold IsKeyPressed, IsMouseButtonPressed.
  rewrite !after_app. simpl. split.
  - rewrite after_keys by (eapply Forall_impl; [done|]; by intros ? [? _]).
    destruct action; simpl; [|by rewrite state_insert, decide_True|done].
    by rewrite state_insert, decide_True.
  - rewrite after_mouseButtons by (eapply Forall_impl; [done|]; by intros ? [_ ?]).
    destruct action; simpl; [|by rewrite state_insert, decide_True|done].
    by rewrite state_insert, decide_True.
Qed.

Lemma pressed_is_last_action_witness :
  IsKeyPressed 32 (after ([Frame] ++ KeyEvent 32 Press :: [KeyEvent 32 Repeat; Frame])
    NewManager) = true ∧
  IsMouseButtonPressed 32
    (after ([Frame] ++ ButtonEvent 32 Press :: [KeyEvent 32 Repeat; Frame])
      NewManager) = true.
Proof.
  apply (pressed_is_last_action [Frame] [KeyEvent 32 Repeat; Frame] 32 Press NewManager).
  - done.
  - repeat constructor; intros [?|?]; done.
Defined.

(** X24. After [Update], and until the cursor callback runs again, the
    mouse delta is (0, 0) when the cursor position is finite; the scroll
    offsets are (0, 0) right after [Update]. *)
Theorem GetMouseDelta_after_Update es m :
  is_finite (x (mousePos m)) = true → is_finite (y (mousePos m)) = true →
  Forall (λ ev, is_CursorEvent ev = false) es →
  GetMouseDelta (after es (Update m)) = (0, 0) ∧
  GetMousePosition (after es (Update m)) = GetMousePosition m ∧
  GetScroll (Update m) = (0, 0).
Proof.
  intros Hx Hy Hes. destruct (after_mouse es m Hes) as [Hpos Hprev].
  unfold GetMouseDelta, GetMousePosition. rewrite Hpos, Hprev.
  by rewrite !sub_diag_finite.
Qed.

Lemma GetMouseDelta_after_Update_witness :
  GetMouseDelta (after [KeyEvent 32 Press; Frame] (Update moved)) = (0, 0) ∧
  GetMousePosition (after [KeyEvent 32 Press; Frame] (Update moved)) = (3, 4) ∧
  GetScroll (Update moved) = (0, 0).
Proof.
  apply (GetMouseDelta_after_Update [KeyEvent 32 Press; Frame] moved).
  - by vm_compute.
  - by vm_compute.
  - by repeat constructor.
Defined.

End InputFacts.

(** * More properties of the audio manager *)

Module AudioFacts.

Import Audio.

Local Open Scope float_scope.

Implicit Types (m : Manager) (id : string) (op : Op) (ops rest : list Op).

Lemma SFcompare_antisym (a b : spec_float) :
  SFcompare b a = option_map CompOpp (SFcompare a b).
Proof.
  destruct a as [sa|sa| |sa ma ea], b as [sb|sb| |sb mb eb]; simpl; try done;
    try (by destruct sa); try (by destruct sb); try (by destruct sa, sb).
  f_equal. destruct sa, sb; try done.
  - rewrite (Z.compare_antisym eb ea).
    destruct (eb ?= ea)%Z; simpl; try done.
    by rewrite (Pos.compare_cont_antisym ma mb Eq).
  - rewrite (Z.compare_antisym eb ea).
    destruct (eb ?= ea)%Z; simpl; try done.
    by rewrite (Pos.compare_cont_antisym ma mb Eq).
Qed.

Lemma is_nan_spec (v : float) : is_nan v = false → Prim2SF v ≠ S754_nan.
Proof.
  unfold is_nan. rewrite FloatAxioms.eqb_spec. intros Hv Hnan.
  by rewrite Hnan in Hv.
Qed.

Lemma ltb_false_leb (a b : float) :
  is_nan a = false → is_nan b = false → (a <? b) = false → (b <=? a) = true.
Proof.
  intros Ha%is_nan_spec Hb%is_nan_spec.
  rewrite FloatAxioms.ltb_spec, FloatAxioms.leb_spec.
  unfold SFltb, SFleb. rewrite (SFcompare_antisym (Prim2SF a) (Prim2SF b)).
  destruct (SFcompare (Prim2SF a) (Prim2SF b)) as [[| |]|] eqn:Hc; simpl; try done.
  destruct (Prim2SF a) as [sa|sa| |sa ma ea], (Prim2SF b) as [sb|sb| |sb mb eb];
    simpl in Hc; try done; by destruct sa || destruct sb.
Qed.

Lemma clamp_in_range (volume : float) :
  is_nan volume = false → in_range (clamp volume) = true.
Proof.
  intros Hv. unfold clamp.
  destruct (volume <? 0) eqn:H0; [done|].
  destruct (1 <? volume) eqn:H1; [done|].
  unfold in_range. rewrite (ltb_false_leb volume 0), (ltb_false_leb 1 volume); done.
Qed.

Lemma step_lookup_None m op id :
  sounds m !! id = None → ¬ loads id op → sounds (step m op) !! id = None.
Proof.
  intros Hid Hop. destruct op as [| |id' f|id'|id'|id' v|id' l]; simpl; try done.
  - apply lookup_insert_None. split; [done|]. intros ->. apply Hop. by exists f.
  - unfold PlaySound. destruct (sounds m !! id') eqn:Hid'; [|done]. simpl.
    apply lookup_insert_None. split; [done|]. intros ->. by rewrite Hid in Hid'.
  - unfold StopSound. destruct (sounds m !! id') eqn:Hid'; [|done]. simpl.
    apply lookup_insert_None. split; [done|]. intros ->. by rewrite Hid in Hid'.
  - unfold SetVolume. destruct (sounds m !! id') eqn:Hid'; [|done]. simpl.
    apply lookup_insert_None. split; [done|]. intros ->. by rewrite Hid in Hid'.
  - unfold SetLoop. destruct (sounds m !! id') eqn:Hid'; [|done]. simpl.
    apply lookup_insert_None. split; [done|]. intros ->. by rewrite Hid in Hid'.
Qed.

Lemma run_app ops rest m : run (ops ++ rest) m = run rest (run ops m).
Proof. apply foldl_app. Qed.

Lemma step_volumes_ok m op :
  passes_number op = true → volumes_ok m → volumes_ok (step m op).
Proof.
  intros Hop Hm. destruct op as [| |id' f|id'|id'|id' v|id' l]; simpl; try done.
  - intros id sound. simpl. destruct (decide (id' = id)) as [->|Hne].
    + rewrite lookup_insert_eq. by intros [= <-].
    + rewrite lookup_insert_ne by done. apply Hm.
  - unfold PlaySound. destruct (sounds m !! id') as [s|] eqn:Hid'; [|done].
    intros id sound. simpl. destruct (decide (id' = id)) as [->|Hne].
    + rewrite lookup_insert_eq. intros [= <-]. simpl. by apply (Hm id).
    + rewrite lookup_insert_ne by done. apply Hm.
  - unfold StopSound. destruct (sounds m !! id') as [s|] eqn:Hid'; [|done].
    intros id sound. simpl. destruct (decide (id' = id)) as [->|Hne].
    + rewrite lookup_insert_eq. intros [= <-]. simpl. by apply (Hm id).
    + rewrite lookup_insert_ne by done. apply Hm.
  - unfold SetVolume. destruct (sounds m !! id') as [s|] eqn:Hid'; [|done].
    intros id sound. simpl. destruct (decide (id' = id)) as [->|Hne].
    + rewrite lookup_insert_eq. intros [= <-]. simpl. apply clamp_in_range.
      simpl in Hop. by destruct (is_nan v).
    + rewrite lookup_insert_ne by done. apply Hm.
  - unfold SetLoop. destruct (sounds m !! id') as [s|] eqn:Hid'; [|done].
    intros id sound. simpl. destruct (decide (id' = id)) as [->|Hne].
    + rewrite lookup_insert_eq. intros [= <-]. simpl. by apply (Hm id).
    + rewrite lookup_insert_ne by done. apply Hm.
Qed.

Lemma step_playing m op id :
  ¬ touches id op → IsPlaying id (step m op) = IsPlaying id m.
Proof.
  intros Hop. unfold IsPlaying.
  destruct op as [| |id' f|id'|id'|id' v|id' l]; simpl; try done.
  - destruct Hop. by left.
  - rewrite lookup_insert_ne; [done|]. intros ->. apply Hop. right; left. by exists f.
  - destruct (decide (id' = id)) as [->|Hne].
    { destruct Hop. by right; right; left. }
    unfold PlaySound. destruct (sounds m !! id'); [|done]. simpl.
    by rewrite lookup_insert_ne.
  - destruct (decide (id' = id)) as [->|Hne].
    { destruct Hop. by right; right; right. }
    unfold StopSound. destruct (sounds m !! id'); [|done]. simpl.
    by rewrite lookup_insert_ne.
  - unfold SetVolume. destruct (sounds m !! id') eqn:Hid'; [|done]. simpl.
    destruct (decide (id' = id)) as [->|Hne].
    + by rewrite lookup_insert_eq, Hid'.
    + by rewrite lookup_insert_ne.
  - unfold SetLoop. destruct (sounds m !! id') eqn:Hid'; [|done]. simpl.
    destruct (decide (id' = id)) as [->|Hne].
    + by rewrite lookup_insert_eq, Hid'.
    + by rewrite lookup_insert_ne.
Qed.

Lemma run_playing rest m id :
  Forall (λ op, ¬ touches id op) rest → IsPlaying id (run rest m) = IsPlaying id m.
Proof.
  revert m. induction rest as [|op rest IH]; intros m Hrest; [done|].
  apply Forall_cons in Hrest as [Hop Hrest]. simpl.
  rewrite IH by done. by apply step_playing.
Qed.

(** X25. A manager that starts as [NewManager] and is never passed NaN as
    a volume reports a volume between 0 and 1 for every sound ID, loaded
    or not: [SetVolume] clamps, [LoadSound] starts at 1 and an unknown ID
    reads as 0. *)
Theorem GetVolume_stays_in_range ops id :
  Forall (λ op, passes_number op = true) ops →
  in_range (GetVolume id (run ops NewManager)) = true.
Proof.
  intros Hops.
  assert (∀ m, volumes_ok m → volumes_ok (run ops m)) as Hrun.
  { induction ops as [|op ops IH]; intros m Hm; [done|].
    apply Forall_cons in Hops as [Hop Hops]. simpl.
    apply (IH Hops). by apply step_volumes_ok. }
  assert (volumes_ok NewManager) as Hnew by (by intros ? ?; simpl).
  specialize (Hrun _ Hnew). unfold GetVolume.
  destruct (sounds (run ops NewManager) !! id) as [sound|] eqn:Hid; [|done].
  by apply (Hrun id).
Qed.

Lemma GetVolume_stays_in_range_witness :
  Forall (λ op, passes_number op = true) jingle ∧
  in_range (GetVolume "jingle" (run jingle NewManager)) = true.
Proof.
  assert (Forall (λ op, passes_number op = true) jingle) as H
    by (by repeat constructor).
  split; [exact H|]. exact (GetVolume_stays_in_range jingle "jingle" H).
Defined.

(** X26. A sound ID that the manager does not hold, and that no later
    call loads, stays unknown through every other call: [PlaySound],
    [StopSound], [SetVolume] and [SetLoop] on it do nothing, it never
    plays and its volume reads as 0. This is the state of every ID after
    [Shutdown]. *)
Theorem unloaded_sound_stays_silent ops m id :
  sounds m !! id = None →
  Forall (λ op, ¬ loads id op) ops →
  sounds (run ops m) !! id = None ∧
  IsPlaying id (run ops m) = false ∧
  GetVolume id (run ops m) = 0 ∧
  PlaySound id (run ops m) = run ops m ∧
  StopSound id (run ops m) = run ops m ∧
  (∀ volume, SetVolume id volume (run ops m) = run ops m) ∧
  (∀ loop, SetLoop id loop (run ops m) = run ops m).
Proof.
  intros Hid Hops.
  assert (sounds (run ops m) !! id = None) as Hnone.
  { revert m Hid. induction ops as [|op ops IH]; intros m Hid; [done|].
    apply Forall_cons in Hops as [Hop Hops]. simpl.
    apply (IH Hops). by apply step_lookup_None. }
  unfold IsPlaying, GetVolume, PlaySound, StopSound, SetVolume, SetLoop.
  by rewrite Hnone.
Qed.

Lemma unloaded_sound_stays_silent_witness :
  IsPlaying "jingle" (run [OPlaySound "jingle"] (Shutdown (run jingle NewManager)))
    = false ∧
  IsPlaying "jingle" (run jingle NewManager) = true.
Proof.
  split; [|by vm_compute].
  apply (unloaded_sound_stays_silent [OPlaySound "jingle"]
    (Shutdown (run jingle NewManager)) "jingle").
  - done.
  - repeat constructor. by intros [f Hf].
Defined.

(** X27. For a sound the manager holds, [IsPlaying] reports the last of
    [PlaySound] and [StopSound] called on it, as long as the sound is not
    loaded again and the manager is not shut down; calls on other sounds,
    [SetVolume], [SetLoop] and [Init] do not change it. *)
Theorem IsPlaying_is_last_call ops rest m id :
  is_Some (sounds (run ops m) !! id) →
  Forall (λ op, ¬ touches id op) rest →
  IsPlaying id (run (ops ++ OPlaySound id :: rest) m) = true ∧
  IsPlaying id (run (ops ++ OStopSound id :: rest) m) = false.
Proof.
  intros [sound Hid] Hrest. rewrite !run_app. simpl.
  rewrite !run_playing by done. unfold IsPlaying, PlaySound, StopSound.
  rewrite Hid. simpl. by rewrite !lookup_insert_eq.
Qed.

Lemma IsPlaying_is_last_call_witness :
  IsPlaying "jingle"
    (run ([OLoadSound "jingle" "jingle.wav"] ++ OPlaySound "jingle" ::
          [OSetVolume "jingle" 0; OStopSound "other"]) NewManager) = true ∧
  IsPlaying "jingle"
    (run ([OLoadSound "jingle" "jingle.wav"] ++ OStopSound "jingle" ::
          [OSetVolume "jingle" 0; OStopSound "other"]) NewManager) = false.
Proof.
  apply (IsPlaying_is_last_call [OLoadSound "jingle" "jingle.wav"]
    [OSetVolume "jingle" 0; OStopSound "other"] NewManager "jingle").
  - by eexists.
  - repeat constructor; intros [?|[[f ?]|[?|?]]]; done.
Defined.

End AudioFacts.
